(** * The open-addressing hash table of Q3/CWK2Q3.c

    A shallow embedding of the hash table of [src/Q3/CWK2Q3.c] (linear
    probing with stride 1, tombstone deletion, load-factor driven resizing)
    and the properties of its operations.

    Modelling decisions, each taken from the C source:

    - The three file-scope variables [hash_map], [current_size] and
      [number_of_items] are the three fields of [table]; every function
      takes the table and returns the new one.
    - A cell of [hash_map] is a [char*]: [NULL], the address of the
      marker [tombstone], or another pointer handed in by the caller.  These
      are the three constructors of [slot].  The marker points to a string
      literal, and a literal "tombstone" of the caller may share its
      storage: what the caller hands to [add_to_map] is a [pointer], the
      marker's own address or a pointer of the caller's own, and a cell
      that stores the marker's address is a tombstone for every test the
      source makes.  A pointer of the caller's own may well point to the
      same text, and [strcmp] looks at the text only.
    - A key is the text of a C string, the characters before its
      terminator.  The table keeps the caller's pointer; the text behind it
      is taken not to change while it is stored.
    - [int] is the 32-bit two's complement integer.  The running sum of
      [hash_function] wraps around, as its comment accepts; any other signed
      overflow, a division by zero and an access outside the allocated
      array are undefined behaviour and end the run with [Undefined].
    - Whether [char] is signed is left to the implementation by C; the
      development is parametric in [char_is_signed].
    - [(double) n / (double) m > 0.7] is decided exactly.  Both conversions
      are exact, and in binary64 arithmetic the quotient 7/10 rounds to
      the very constant 0.7; for 32-bit [n] and [m] with [m >= 1] any
      other ratio differs from 7/10 by at least 1/(10 * 2^31), far more
      than the rounding error, so the test succeeds exactly when
      [7 * m < 10 * n].
    - The two probe loops have no bound in the source.  Every loop takes a
      [fuel], the number of times its condition may be evaluated, and
      answers [OutOfFuel] when that is not enough; a loop that answers
      [OutOfFuel] for every fuel does not terminate.
    - [calloc] succeeds (its failure ends the process).
    - What [print_map] and [main] write with [printf] is the string they
      return. *)

From Stdlib Require Import ZArith String Ascii List Lia Bool.
From stdpp Require Import base list.
Import ListNotations.
Local Open Scope string_scope.
Local Open Scope Z_scope.

(** ** Outcomes of a run *)

Inductive fault : Type :=
| DivisionByZero
| OutOfBounds
| SignedOverflow.

Inductive outcome (A : Type) : Type :=
| Done (a : A)
| Undefined (f : fault)
| OutOfFuel.

Arguments Done {A} a.
Arguments Undefined {A} f.
Arguments OutOfFuel {A}.

Definition bind {A B : Type} (c : outcome A) (k : A -> outcome B) : outcome B :=
  match c with
  | Done a => k a
  | Undefined f => Undefined f
  | OutOfFuel => OutOfFuel
  end.

Notation "'let*' x ':=' c 'in' k" := (bind c (fun x => k))
  (at level 10, x name, c at level 100, k at level 200).

(** ** The type [int] *)

Definition int_min : Z := -2147483648.
Definition int_max : Z := 2147483647.

Definition wrap_int (z : Z) : Z := (z + 2147483648) mod 4294967296 - 2147483648.

Definition checked_int (z : Z) : outcome Z :=
  if (int_min <=? z) && (z <=? int_max) then Done z else Undefined SignedOverflow.

(** ** Slots and the table *)

Inductive slot : Type :=
| Empty
| Tombstone
| Occupied (name : string).

Record table : Type := mkTable {
  hash_map : list slot;
  current_size : Z;
  number_of_items : Z
}.

(** The state before any call: [hash_map] is a null pointer. *)
Definition uninitialised : table := mkTable [] 0 0.

(** [static const char* tombstone = "tombstone";] *)
Definition tombstone : string := "tombstone".

(** The argument of [add_to_map]: the address the marker holds, or any
    other pointer, with the text it points to. *)
Inductive pointer : Type :=
| Marker
| Caller (text : string).

Coercion Caller : string >-> pointer.

(** The text behind a pointer. *)
Definition text_of (p : pointer) : string :=
  match p with
  | Marker => tombstone
  | Caller text => text
  end.

(** The cell that stores a pointer. *)
Definition cell_of (p : pointer) : slot :=
  match p with
  | Marker => Tombstone
  | Caller text => Occupied text
  end.

(** The text a non-null cell points to. *)
Definition pointee (s : slot) : option string :=
  match s with
  | Empty => None
  | Tombstone => Some tombstone
  | Occupied name => Some name
  end.

(** [hash_map[index] == tombstone], a comparison of addresses. *)
Definition is_tombstone (s : slot) : bool :=
  match s with
  | Tombstone => true
  | _ => false
  end.

Definition read_slot (m : list slot) (index : Z) : outcome slot :=
  if 0 <=? index then
    match m !! Z.to_nat index with
    | Some s => Done s
    | None => Undefined OutOfBounds
    end
  else Undefined OutOfBounds.

Definition write_slot (m : list slot) (index : Z) (s : slot) : outcome (list slot) :=
  if (0 <=? index) && (index <? Z.of_nat (length m))
  then Done (<[Z.to_nat index := s]> m)
  else Undefined OutOfBounds.

(** [(double) items / (double) size > MAX_LOAD_FACTOR] *)
Definition load_factor_exceeded (items size : Z) : bool :=
  if 0 <? size then 7 * size <? 10 * items
  else if size <? 0 then 10 * items <? 7 * size
  else 0 <? items.

Inductive op : Type :=
| Resize (new_size : Z)
| Add (name : pointer)
| Remove (name : string)
| Search (name : string).

Section HashTable.

(** Whether plain [char] is a signed type. *)
Variable char_is_signed : bool.

(** [(int) *key] *)
Definition char_code (c : ascii) : Z :=
  let n := Z.of_N (N_of_ascii c) in
  if char_is_signed && (128 <=? n) then n - 256 else n.

(** The loop of [hash_function]: [sum += ascii_value] for each character. *)
Fixpoint sum_codes (key : string) (sum : Z) : Z :=
  match key with
  | EmptyString => sum
  | String c rest => sum_codes rest (wrap_int (sum + char_code c))
  end.

(** [return sum % current_size;] where [%] truncates towards zero. *)
Definition hash_function (t : table) (key : string) : outcome Z :=
  let sum := sum_codes key 0 in
  if current_size t =? 0 then Undefined DivisionByZero
  else if (sum =? int_min) && (current_size t =? -1) then Undefined SignedOverflow
  else Done (Z.rem sum (current_size t)).

(** [++current_index >= current_size ? 0 : current_index]; the argument
    has just indexed the array, so the increment does not overflow. *)
Definition next_index (t : table) (current_index : Z) : Z :=
  if current_index + 1 >=? current_size t then 0 else current_index + 1.

(** The [while (hash_map[index])] loop of [add_to_map_without_resizing]
    and the two statements after it. *)
Fixpoint add_probe (fuel : nat) (name : pointer) (t : table)
    (index first_tombstone_index : Z) : outcome table :=
  match fuel with
  | O => OutOfFuel
  | S fuel' =>
    let* s := read_slot (hash_map t) index in
    match pointee s with
    | None =>
      let target :=
        if first_tombstone_index =? -1 then index else first_tombstone_index in
      let* m := write_slot (hash_map t) target (cell_of name) in
      let* n := checked_int (number_of_items t + 1) in
      Done (mkTable m (current_size t) n)
    | Some text =>
      if String.eqb text (text_of name) then Done t
      else
        let first_tombstone_index' :=
          if (first_tombstone_index =? -1) && is_tombstone s
          then index else first_tombstone_index in
        add_probe fuel' name t (next_index t index) first_tombstone_index'
    end
  end.

Definition add_to_map_without_resizing (fuel : nat) (name : pointer) (t : table)
    : outcome table :=
  let* index := hash_function t (text_of name) in
  add_probe fuel name t index (-1).

(** The [for] loop of [resize_map] over the old array. *)
Fixpoint rehash (fuel : nat) (old_map : list slot) (i : Z) (remaining : nat)
    (t : table) : outcome table :=
  match remaining with
  | O => Done t
  | S remaining' =>
    let* s := read_slot old_map i in
    let* t' :=
      match s with
      | Occupied name => add_to_map_without_resizing fuel name t
      | _ => Done t
      end in
    rehash fuel old_map (i + 1) remaining' t'
  end.

Definition resize_map (fuel : nat) (new_size : Z) (t : table) : outcome table :=
  if (new_size <? 1) || load_factor_exceeded (number_of_items t) new_size
  then Done t
  else
    let old_map := hash_map t in
    let old_size := current_size t in
    let t' := mkTable (replicate (Z.to_nat new_size) Empty) new_size 0 in
    if 0 <? old_size
    then rehash fuel old_map 0 (Z.to_nat old_size) t'
    else Done t'.

Definition add_to_map (fuel : nat) (name : pointer) (t : table) : outcome table :=
  let* t1 := if current_size t =? 0 then resize_map fuel 10 t else Done t in
  let* t2 := add_to_map_without_resizing fuel name t1 in
  if load_factor_exceeded (number_of_items t2) (current_size t2)
  then
    let* doubled := checked_int (current_size t2 * 2) in
    resize_map fuel doubled t2
  else Done t2.

(** The [for] loop of [index_of]. *)
Fixpoint index_probe (fuel : nat) (name : string) (t : table) (index : Z)
    : outcome Z :=
  match fuel with
  | O => OutOfFuel
  | S fuel' =>
    let* s := read_slot (hash_map t) index in
    match pointee s with
    | None => Done (-1)
    | Some text =>
      if String.eqb name text then Done index
      else index_probe fuel' name t (next_index t index)
    end
  end.

Definition index_of (fuel : nat) (name : string) (t : table) : outcome Z :=
  let* index := hash_function t name in
  index_probe fuel name t index.

Definition remove_from_map (fuel : nat) (name : string) (t : table)
    : outcome (table * Z) :=
  let* removed_index := index_of fuel name t in
  if removed_index =? -1 then Done (t, 0)
  else
    let* m := write_slot (hash_map t) removed_index Tombstone in
    let* n := checked_int (number_of_items t - 1) in
    Done (mkTable m (current_size t) n, 1).

Definition search_map (fuel : nat) (name : string) (t : table) : outcome Z :=
  let* index := index_of fuel name t in
  Done (if index =? -1 then 0 else 1).

(** One call of the public interface; the second component is the value
    returned by [remove_from_map] and [search_map], 0 for the [void] ones. *)
Definition exec (fuel : nat) (o : op) (t : table) : outcome (table * Z) :=
  match o with
  | Resize new_size => let* t' := resize_map fuel new_size t in Done (t', 0)
  | Add name => let* t' := add_to_map fuel name t in Done (t', 0)
  | Remove name => remove_from_map fuel name t
  | Search name => let* r := search_map fuel name t in Done (t, r)
  end.

Fixpoint run (fuel : nat) (ops : list op) (t : table) : outcome table :=
  match ops with
  | [] => Done t
  | o :: ops' => let* r := exec fuel o t in run fuel ops' (fst r)
  end.

(** ** Properties of tables *)

Definition is_occupied (s : slot) : bool :=
  match s with
  | Occupied _ => true
  | _ => false
  end.

(** The number of cells that hold a caller's name. *)
Fixpoint count_occupied (m : list slot) : Z :=
  match m with
  | [] => 0
  | s :: m' => (if is_occupied s then 1 else 0) + count_occupied m'
  end.

(** [name] sits in a cell of the table. *)
Definition stored (t : table) (name : string) : Prop :=
  In (Occupied name) (hash_map t).

(** The allocated array has [current_size] cells. *)
Definition sized (t : table) : Prop :=
  Z.of_nat (length (hash_map t)) = current_size t.

(** No name sits in two cells. *)
Definition unique_keys (t : table) : Prop :=
  forall i j name,
    read_slot (hash_map t) i = Done (Occupied name) ->
    read_slot (hash_map t) j = Done (Occupied name) ->
    i = j.

(** [walk t i j]: probing from [i] arrives at [j], and every cell passed
    on the way is non-null. *)
Inductive walk (t : table) : Z -> Z -> Prop :=
| walk_here i : walk t i i
| walk_next i j s :
    read_slot (hash_map t) i = Done s ->
    s <> Empty ->
    walk t (next_index t i) j ->
    walk t i j.

(** Every stored name is reached from its hash without crossing a null
    cell. *)
Definition probe_chain (t : table) : Prop :=
  forall i name,
    read_slot (hash_map t) i = Done (Occupied name) ->
    exists h, hash_function t name = Done h /\ walk t h i.

Definition well_formed (t : table) : Prop :=
  sized t /\ probe_chain t /\ unique_keys t.

(** No text sits in two cells, the cells that hold the address of the
    marker counted. *)
Definition unique_texts (t : table) : Prop :=
  forall i j s s' text,
    read_slot (hash_map t) i = Done s ->
    read_slot (hash_map t) j = Done s' ->
    pointee s = Some text ->
    pointee s' = Some text ->
    i = j.

(** Every non-null cell is reached from the hash of its text without
    crossing a null cell. *)
Definition full_chain (t : table) : Prop :=
  forall i s text,
    read_slot (hash_map t) i = Done s ->
    pointee s = Some text ->
    exists h, hash_function t text = Done h /\ walk t h i.

(** What holds of a table that no deletion has touched. *)
Definition settled (t : table) : Prop :=
  sized t /\ full_chain t /\ unique_texts t.

(** The counter is a value of [int]. *)
Definition count_in_range (t : table) : Prop :=
  int_min <= number_of_items t <= int_max.

Definition is_used (s : slot) : bool :=
  match s with Empty => false | _ => true end.

(** The number of cells that are not null. *)
Fixpoint count_used (m : list slot) : Z :=
  match m with
  | [] => 0
  | s :: m' => (if is_used s then 1 else 0) + count_used m'
  end.

(** The counter is within 0.7 of the capacity, or at most the number of
    cells in use. *)
Definition count_bounded (t : table) : Prop :=
  10 * number_of_items t <= 7 * current_size t
  \/ number_of_items t <= count_used (hash_map t).

(** The counter is the number of stored names. *)
Definition count_exact (t : table) : Prop :=
  number_of_items t = count_occupied (hash_map t).

(** [count / capacity <= 0.7] *)
Definition load_ok (t : table) : Prop :=
  10 * number_of_items t <= 7 * current_size t.

Definition reachable (t : table) : Prop :=
  exists fuel ops, run fuel ops uninitialised = Done t.

(** The array [calloc] returns in [resize_map], before the old names are
    put back. *)
Definition blank (new_size : Z) : table :=
  mkTable (replicate (Z.to_nat new_size) Empty) new_size 0.

(** What a returning probe has done: nothing, having met the text of
    [name]; or, having come to a null cell, it has put [name] into a
    cell on its way that held no name, and counted it. *)
Definition add_effect (t : table) (name : pointer) (h : Z) (t' : table) : Prop :=
  (t' = t /\
   exists q s, read_slot (hash_map t) q = Done s /\
               pointee s = Some (text_of name))
  \/
  (exists p s m',
     walk t h p /\
     read_slot (hash_map t) p = Done s /\
     is_occupied s = false /\
     (s = Empty \/ In Empty (hash_map t)) /\
     (name = Marker -> s = Empty) /\
     write_slot (hash_map t) p (cell_of name) = Done m' /\
     t' = mkTable m' (current_size t) (number_of_items t + 1)).

(** What holds of every table the interface can produce. *)
Definition invariant (t : table) : Prop := well_formed t /\ count_bounded t.

(** A call that neither asks to delete the text of the marker nor
    inserts the marker's own address. *)
Definition clean (o : op) : Prop :=
  match o with
  | Remove name => name <> tombstone
  | Add name => name <> Marker
  | _ => True
  end.

(** What holds in addition as long as every call is [clean]. *)
Definition tidy (t : table) : Prop :=
  well_formed t /\ count_exact t /\ load_ok t.

(** *** Search as the specification words it *)

(** Probe along the linear sequence; compare each stored name with
    [name]; skip a tombstone without comparing; stop with 1 on a match and
    with 0 on the first empty cell. *)
Fixpoint spec_probe (fuel : nat) (name : string) (t : table) (index : Z)
    : outcome Z :=
  match fuel with
  | O => OutOfFuel
  | S fuel' =>
    let* s := read_slot (hash_map t) index in
    match s with
    | Empty => Done 0
    | Tombstone => spec_probe fuel' name t (next_index t index)
    | Occupied stored_name =>
      if String.eqb name stored_name then Done 1
      else spec_probe fuel' name t (next_index t index)
    end
  end.

Definition spec_search (fuel : nat) (name : string) (t : table) : outcome Z :=
  let* index := hash_function t name in
  spec_probe fuel name t index.

(** *** The tables and keys of the examples *)

(** [n] copies of the character [c]. *)
Fixpoint repeat_char (c : ascii) (n : nat) : string :=
  match n with
  | O => EmptyString
  | S n' => String c (repeat_char c n')
  end.

(** 22139009 times the letter a: the codes add up to 2^31 + 225. *)
Definition long_key : string := repeat_char "a" (Z.to_nat 22139009).

(** The two bytes of a UTF-8 encoded e with acute accent. *)
Definition e_acute : string := String "195" (String "169" EmptyString).

(** The table after [add_to_map("a")] and [remove_from_map("a")]. *)
Definition one_tombstone : table :=
  mkTable [Empty; Empty; Empty; Empty; Empty; Empty; Empty; Tombstone;
           Empty; Empty] 10 0.

(** The table after [add_to_map] of the address of the marker. *)
Definition marker_inserted : table :=
  mkTable [Empty; Empty; Empty; Empty; Empty; Empty; Empty; Tombstone;
           Empty; Empty] 10 1.

(** The default table after each of its ten cells was used and deleted. *)
Definition saturated : table :=
  mkTable [Tombstone; Tombstone; Tombstone; Tombstone; Tombstone; Tombstone;
           Tombstone; Tombstone; Tombstone; Tombstone] 10 0.

(** Ten names of one letter, one for each cell of the default table. *)
Definition ten_names : list string :=
  ["a"; "b"; "c"; "d"; "e"; "f"; "g"; "h"; "i"; "j"].

(** Insert a name and delete it again, for each name in turn. *)
Definition add_and_remove (names : list string) : list op :=
  flat_map (fun name : string => [Add name; Remove name]) names.

(** The default table with two names. *)
Definition two_names : table :=
  mkTable [Empty; Empty; Empty; Empty; Empty; Empty; Occupied "Alpha";
           Occupied "Bravo"; Empty; Empty] 10 2.

(** The tables of the scenario of the specification. *)
Definition after_bravo : table :=
  mkTable [Occupied "Alpha"; Empty; Occupied "Bravo"; Empty; Empty; Empty] 6 2.

Definition after_delta : table :=
  mkTable [Occupied "Alpha"; Occupied "Charlie"; Occupied "Bravo"; Empty;
           Occupied "Delta"; Empty] 6 4.

Definition after_echo : table :=
  mkTable [Occupied "Charlie"; Empty; Occupied "Bravo"; Empty; Empty; Empty;
           Occupied "Alpha"; Empty; Empty; Empty; Occupied "Delta";
           Occupied "Echo"] 12 5.

Definition after_delete : table :=
  mkTable [Tombstone; Empty; Occupied "Bravo"; Empty; Empty; Empty;
           Occupied "Alpha"; Empty; Empty; Empty; Occupied "Delta";
           Occupied "Echo"] 12 4.

(** *** Printing *)

Definition newline : string := String "010" EmptyString.

(** [print_value_at_index]: what [printf] writes for the cell at
    [index]; nothing for a null cell. *)
Definition print_value_at_index (t : table) (index : Z) : outcome string :=
  let* s := read_slot (hash_map t) index in
  match s with
  | Empty => Done EmptyString
  | Tombstone => Done "[TOMBSTONE]"
  | Occupied name => Done name
  end.

(** The [for] loop of [print_map]: each cell but the last, followed by a
    comma and a blank.  [out] is what has been written so far. *)
Fixpoint print_cells (t : table) (i : Z) (remaining : nat) (out : string)
    : outcome string :=
  match remaining with
  | O => Done out
  | S remaining' =>
    let* s := read_slot (hash_map t) i in
    let* text :=
      match s with
      | Empty => Done EmptyString
      | _ => print_value_at_index t i
      end in
    print_cells t (i + 1) remaining' (out ++ text ++ ", ")
  end.

(** [print_map]: the text written to the standard output. *)
Definition print_map (t : table) : outcome string :=
  let* last_index := checked_int (current_size t - 1) in
  let* out := print_cells t 0 (Z.to_nat last_index) EmptyString in
  let* last := print_value_at_index t last_index in
  Done (out ++ last ++ newline).

(** The text shown for a cell. *)
Definition render (s : slot) : string :=
  match s with
  | Empty => EmptyString
  | Tombstone => "[TOMBSTONE]"
  | Occupied name => name
  end.

(** *** The demonstration of [main] *)

(** [main], with the text it writes and its exit status.  The five
    strings live in the caller's memory; [free] has no effect on what is
    observed. *)
Definition main (fuel : nat) : outcome (string * Z) :=
  let stringOne := "#Hello world" in
  let stringTwo := "How are you?" in
  let stringThree := "Be the best you...!!" in
  let stringFour := "Be kind to yourself" in
  let stringFive := "Principles of Programming 2" in
  let* t := resize_map fuel 6 uninitialised in
  let* t := add_to_map fuel stringOne t in
  let* t := add_to_map fuel stringTwo t in
  let* t := add_to_map fuel stringOne t in
  let* t := add_to_map fuel stringThree t in
  let* t := add_to_map fuel stringFour t in
  let* t := add_to_map fuel stringFive t in
  let* out1 := print_map t in
  let* ret := search_map fuel stringOne t in
  let out2 := if ret =? 0 then EmptyString
              else "Found " ++ stringOne ++ "!" ++ newline in
  let* removed := remove_from_map fuel stringThree t in
  let t := fst removed in
  let* ret := search_map fuel stringFive t in
  let out3 := if ret =? 0 then EmptyString
              else "Found " ++ stringFive ++ "!" ++ newline in
  let* out4 := print_map t in
  let* t := add_to_map fuel stringThree t in
  let* out5 := print_map t in
  Done (out1 ++ out2 ++ out3 ++ out4 ++ out5, 0).

(** The distance from cell [i] forward, with wrap-around, to cell [e]. *)
Definition probe_distance (t : table) (i e : Z) : Z :=
  if i <=? e then e - i else e - i + current_size t.


(** The calls of the scenario, up to the deletion of Charlie. *)
Definition scenario : list op :=
  [Resize 6; Add "Alpha"; Add "Bravo"; Add "Alpha"; Add "Charlie";
   Add "Delta"; Add "Echo"; Search "Alpha"; Remove "Charlie"].

(** *** Keys of plain ASCII *)

(** The codes of the characters of a key, added up as numbers. *)
Fixpoint code_sum (key : string) : Z :=
  match key with
  | EmptyString => 0
  | String c rest => Z.of_N (N_of_ascii c) + code_sum rest
  end.

(** Every character of the key has a code below 128. *)
Fixpoint is_ascii (key : string) : bool :=
  match key with
  | EmptyString => true
  | String c rest => (Z.of_N (N_of_ascii c) <? 128) && is_ascii rest
  end.

(** *** Reading and writing cells *)

Lemma read_slot_Done m i s :
  read_slot m i = Done s <-> 0 <= i /\ m !! Z.to_nat i = Some s.
Proof.
  unfold read_slot. destruct (Z.leb_spec 0 i) as [Hi|Hi].
  - destruct (m !! Z.to_nat i) as [s'|] eqn:E; split.
    + intros H. inversion H. subst. auto.
    + intros [_ H]. congruence.
    + discriminate.
    + intros [_ H]. discriminate.
  - split; [discriminate | lia].
Qed.

Lemma read_slot_range m i s :
  read_slot m i = Done s -> 0 <= i < Z.of_nat (length m).
Proof.
  intros H. apply read_slot_Done in H as [Hi H].
  apply lookup_lt_Some in H. lia.
Qed.

Lemma read_slot_In m i s : read_slot m i = Done s -> In s m.
Proof.
  intros H. apply read_slot_Done in H as [_ H].
  apply list_elem_of_In, list_elem_of_lookup. eauto.
Qed.

Lemma In_read_slot m s : In s m -> exists i, read_slot m i = Done s.
Proof.
  intros H. apply list_elem_of_In, list_elem_of_lookup in H as [n Hn].
  exists (Z.of_nat n). apply read_slot_Done. rewrite Nat2Z.id. split; [lia | done].
Qed.

Lemma read_slot_total m i :
  0 <= i < Z.of_nat (length m) -> exists s, read_slot m i = Done s.
Proof.
  intros Hi. destruct (lookup_lt_is_Some_2 m (Z.to_nat i)) as [s Hs]; [lia|].
  exists s. apply read_slot_Done. split; [lia | done].
Qed.

Lemma write_slot_Done m p v m' :
  write_slot m p v = Done m' <->
  0 <= p < Z.of_nat (length m) /\ m' = <[Z.to_nat p := v]> m.
Proof.
  unfold write_slot.
  destruct (Z.leb_spec 0 p), (Z.ltb_spec p (Z.of_nat (length m))); simpl;
    split; try discriminate; try lia.
  - intros E. inversion E. auto.
  - intros [_ ->]. reflexivity.
Qed.

Lemma write_slot_total m p v s :
  read_slot m p = Done s -> write_slot m p v = Done (<[Z.to_nat p := v]> m).
Proof.
  intros H. apply read_slot_range in H. apply write_slot_Done. auto.
Qed.

Lemma write_slot_length m p v m' :
  write_slot m p v = Done m' -> length m' = length m.
Proof.
  intros H. apply write_slot_Done in H as [_ ->]. apply length_insert.
Qed.

Lemma read_write_same m p v m' :
  write_slot m p v = Done m' -> read_slot m' p = Done v.
Proof.
  intros H. apply write_slot_Done in H as [Hp ->].
  apply read_slot_Done. split; [lia|].
  apply list_lookup_insert_eq. lia.
Qed.

Lemma read_write_other m p v m' i :
  write_slot m p v = Done m' -> i <> p -> read_slot m' i = read_slot m i.
Proof.
  intros H Hne. apply write_slot_Done in H as [Hp ->].
  unfold read_slot. destruct (Z.leb_spec 0 i); [|reflexivity].
  rewrite list_lookup_insert_ne by lia. reflexivity.
Qed.

Lemma count_occupied_insert m n v s :
  m !! n = Some s ->
  count_occupied (<[n := v]> m) =
  count_occupied m - (if is_occupied s then 1 else 0)
                   + (if is_occupied v then 1 else 0).
Proof.
  revert n. induction m as [|a m IH]; intros [|n] H; simpl in *; try discriminate.
  - inversion H. subst. lia.
  - rewrite (IH n H). lia.
Qed.

Lemma count_occupied_write m p v m' s :
  write_slot m p v = Done m' ->
  read_slot m p = Done s ->
  count_occupied m' =
  count_occupied m - (if is_occupied s then 1 else 0)
                   + (if is_occupied v then 1 else 0).
Proof.
  intros Hw Hr. apply write_slot_Done in Hw as [_ ->].
  apply read_slot_Done in Hr as [_ Hr]. by apply count_occupied_insert.
Qed.

Lemma count_occupied_bounds m : 0 <= count_occupied m <= Z.of_nat (length m).
Proof.
  induction m as [|a m IH]; simpl; [lia|]. destruct (is_occupied a); lia.
Qed.

Lemma count_occupied_replicate n : count_occupied (replicate n Empty) = 0.
Proof. induction n; simpl; lia. Qed.

Lemma count_used_insert m n v s :
  m !! n = Some s ->
  count_used (<[n := v]> m) =
  count_used m - (if is_used s then 1 else 0) + (if is_used v then 1 else 0).
Proof.
  revert n. induction m as [|a m IH]; intros [|n] H; simpl in *; try discriminate.
  - inversion H. subst. destruct s, v; simpl; lia.
  - rewrite (IH n H). lia.
Qed.

Lemma count_used_write m p v m' s :
  write_slot m p v = Done m' ->
  read_slot m p = Done s ->
  count_used m' =
  count_used m - (if is_used s then 1 else 0) + (if is_used v then 1 else 0).
Proof.
  intros Hw Hr. apply write_slot_Done in Hw as [_ ->].
  apply read_slot_Done in Hr as [_ Hr]. by apply count_used_insert.
Qed.

Lemma count_used_bounds m : 0 <= count_used m <= Z.of_nat (length m).
Proof.
  induction m as [|a m IH]; simpl; [lia|]. destruct a; simpl; lia.
Qed.

Lemma count_used_Empty m : In Empty m -> count_used m < Z.of_nat (length m).
Proof.
  induction m as [|a m IH]; simpl; [tauto|].
  pose proof (count_used_bounds m). intros [->|H']; [simpl; lia|].
  specialize (IH H'). destruct a; simpl; lia.
Qed.

Lemma count_occupied_used m : count_occupied m <= count_used m.
Proof.
  induction m as [|a m IH]; simpl; [lia|]. destruct a; simpl; lia.
Qed.

(** *** Integers and hashing *)

Lemma checked_int_Done z n : checked_int z = Done n -> n = z /\ int_min <= z <= int_max.
Proof.
  unfold checked_int.
  destruct (Z.leb_spec int_min z), (Z.leb_spec z int_max); simpl;
    try discriminate.
  intros E. inversion E. lia.
Qed.

Lemma next_index_size t t' i :
  current_size t' = current_size t -> next_index t' i = next_index t i.
Proof. intros E. unfold next_index. rewrite E. reflexivity. Qed.

Lemma hash_function_Done t name h :
  hash_function t name = Done h -> current_size t <> 0.
Proof.
  unfold hash_function. destruct (Z.eqb_spec (current_size t) 0); [discriminate | auto].
Qed.

Lemma pointee_not_Empty s : s <> Empty -> exists text, pointee s = Some text.
Proof. destruct s; simpl; eauto. congruence. Qed.

(** *** Walks *)

Lemma walk_snoc t h i s :
  walk t h i ->
  read_slot (hash_map t) i = Done s ->
  s <> Empty ->
  walk t h (next_index t i).
Proof.
  induction 1 as [i | i j s0 Hr Hs Hw IH]; intros Hread Hne.
  - eapply walk_next; eauto. apply walk_here.
  - eapply walk_next; eauto.
Qed.

(** Overwriting a cell with a non-null pointer breaks no walk. *)
Lemma walk_write t t' p v h j :
  walk t h j ->
  write_slot (hash_map t) p v = Done (hash_map t') ->
  v <> Empty ->
  current_size t' = current_size t ->
  walk t' h j.
Proof.
  induction 1 as [i | i j s Hr Hs Hw IH]; intros Hwr Hv Hsz.
  - apply walk_here.
  - destruct (Z.eq_dec i p) as [->|Hne].
    + eapply walk_next with (s := v); auto.
      * eapply read_write_same; eauto.
      * rewrite (next_index_size _ _ _ Hsz). auto.
    + eapply walk_next with (s := s); auto.
      * rewrite (read_write_other _ _ _ _ _ Hwr Hne). auto.
      * rewrite (next_index_size _ _ _ Hsz). auto.
Qed.

(** *** The probe of [index_of] *)

(** Along a walk that ends on a cell with the text [name], the probe
    stops, with enough fuel, on a cell with that text. *)
Lemma index_probe_finds t name i j s :
  walk t i j ->
  read_slot (hash_map t) j = Done s ->
  pointee s = Some name ->
  exists fuel0, forall fuel, (fuel0 <= fuel)%nat ->
    exists r s', index_probe fuel name t i = Done r
      /\ read_slot (hash_map t) r = Done s' /\ pointee s' = Some name.
Proof.
  induction 1 as [i | i j s0 Hr Hs Hw IH]; intros Hread Hp.
  - exists 1%nat. intros [|fuel] Hf; [lia|]. simpl.
    rewrite Hread. simpl. rewrite Hp, String.eqb_refl. eauto.
  - destruct (IH Hread Hp) as [fuel0 Hfuel]. exists (S fuel0).
    intros [|fuel] Hf; [lia|]. simpl. rewrite Hr. simpl.
    destruct (pointee_not_Empty _ Hs) as [text Ht]. rewrite Ht.
    destruct (String.eqb_spec name text) as [->|Hne].
    + eauto.
    + apply Hfuel. lia.
Qed.

(** Whatever the probe returns is -1 or the index of a cell with the
    text [name]. *)
Lemma index_probe_Done t name fuel : forall i r,
  index_probe fuel name t i = Done r ->
  r = -1 \/ exists s, read_slot (hash_map t) r = Done s /\ pointee s = Some name.
Proof.
  induction fuel as [|fuel IH]; intros i r H; simpl in H; [discriminate|].
  destruct (read_slot (hash_map t) i) as [s| |] eqn:Hr; simpl in H; try discriminate.
  destruct (pointee s) as [text|] eqn:Hp.
  - destruct (String.eqb_spec name text) as [->|Hne].
    + inversion H. subst. right. eauto.
    + eapply IH; eauto.
  - inversion H. auto.
Qed.

(** *** The probe of [add_to_map_without_resizing] *)

(** Along a walk that ends on a cell with the text of [name], the probe
    returns without a change, whatever the fuel. *)
Lemma add_probe_present t (name : pointer) i j s :
  walk t i j ->
  read_slot (hash_map t) j = Done s ->
  pointee s = Some (text_of name) ->
  forall fuel ft t', add_probe fuel name t i ft = Done t' -> t' = t.
Proof.
  induction 1 as [i | i j s0 Hr Hs Hw IH]; intros Hread Hp [|fuel] ft t' H;
    simpl in H; try discriminate.
  - rewrite Hread in H. simpl in H. rewrite Hp, String.eqb_refl in H.
    congruence.
  - rewrite Hr in H. simpl in H.
    destruct (pointee_not_Empty _ Hs) as [text Ht]. rewrite Ht in H.
    destruct (String.eqb text (text_of name)); [congruence|].
    eapply IH; eauto.
Qed.

(** ... and it does return, with enough fuel. *)
Lemma add_probe_present_returns t (name : pointer) i j s :
  walk t i j ->
  read_slot (hash_map t) j = Done s ->
  pointee s = Some (text_of name) ->
  exists fuel0, forall fuel ft, (fuel0 <= fuel)%nat ->
    add_probe fuel name t i ft = Done t.
Proof.
  induction 1 as [i | i j s0 Hr Hs Hw IH]; intros Hread Hp.
  - exists 1%nat. intros [|fuel] ft Hf; [lia|]. simpl.
    rewrite Hread. simpl. rewrite Hp, String.eqb_refl. reflexivity.
  - destruct (IH Hread Hp) as [fuel0 Hfuel]. exists (S fuel0).
    intros [|fuel] ft Hf; [lia|]. simpl. rewrite Hr. simpl.
    destruct (pointee_not_Empty _ Hs) as [text Ht]. rewrite Ht.
    destruct (String.eqb text (text_of name)); [reflexivity|].
    apply Hfuel. lia.
Qed.

Lemma add_probe_effect t (name : pointer) h fuel : forall i ft t',
  walk t h i ->
  (ft = -1 \/ (walk t h ft /\ read_slot (hash_map t) ft = Done Tombstone
               /\ name <> Marker)) ->
  add_probe fuel name t i ft = Done t' ->
  add_effect t name h t'.
Proof.
  induction fuel as [|fuel IH]; intros i ft t' Hw Hft H; simpl in H;
    [discriminate|].
  destruct (read_slot (hash_map t) i) as [s| |] eqn:Hr; simpl in H;
    try discriminate.
  destruct s as [| |n]; cbn [pointee is_tombstone] in H.
  - (* the null cell that ends the loop *)
    right.
    destruct (write_slot (hash_map t) _ (cell_of name)) as [m'| |] eqn:Hwr;
      cbn [bind] in H; try discriminate.
    destruct (checked_int (number_of_items t + 1)) as [c| |] eqn:Hc;
      cbn [bind] in H; try discriminate.
    apply checked_int_Done in Hc as [-> _]. inversion H; subst; clear H.
    destruct Hft as [->|(Hwft & Hrft & Hnm)].
    + simpl in Hwr. exists i, Empty, m'.
      split; [exact Hw|]. split; [exact Hr|]. split; [reflexivity|].
      split; [left; reflexivity|]. split; [reflexivity|]. auto.
    + pose proof (read_slot_range _ _ _ Hrft) as Hrange.
      destruct (Z.eqb_spec ft (-1)) as [E|_]; [lia|].
      exists ft, Tombstone, m'.
      split; [exact Hwft|]. split; [exact Hrft|]. split; [reflexivity|].
      split; [right; eapply read_slot_In; eauto|].
      split; [intros E; destruct (Hnm E)|]. auto.
  - (* a tombstone *)
    destruct (String.eqb_spec tombstone (text_of name)) as [E|Hne].
    + left. assert (Et : t' = t) by congruence. split; [exact Et|].
      exists i, Tombstone. split; [exact Hr|]. simpl. congruence.
    + eapply IH; [| |exact H].
      * eapply walk_snoc; eauto; discriminate.
      * assert (Hnm : name <> Marker)
          by (intros E; apply Hne; rewrite E; reflexivity).
        rewrite andb_true_r. destruct Hft as [->|Hft]; simpl; [right; auto|].
        destruct Hft as (Hwft & Hrft & _).
        pose proof (read_slot_range _ _ _ Hrft) as Hrange.
        destruct (Z.eqb_spec ft (-1)) as [E|_]; [lia|]. right; auto.
  - (* a name *)
    destruct (String.eqb_spec n (text_of name)) as [E|Hne].
    + left. assert (Et : t' = t) by congruence. split; [exact Et|].
      exists i, (Occupied n). split; [exact Hr|]. simpl. congruence.
    + rewrite andb_false_r in H. eapply IH; [| |exact H]; auto.
      eapply walk_snoc; eauto; discriminate.
Qed.

Lemma add_without_resizing_effect fuel (name : pointer) t t' :
  add_to_map_without_resizing fuel name t = Done t' ->
  exists h, hash_function t (text_of name) = Done h /\ add_effect t name h t'.
Proof.
  unfold add_to_map_without_resizing. intros H.
  destruct (hash_function t (text_of name)) as [h| |] eqn:Hh; simpl in H;
    try discriminate.
  exists h. split; [reflexivity|].
  eapply add_probe_effect; [apply walk_here | left; reflexivity | exact H].
Qed.

(** *** What [add_to_map_without_resizing] preserves *)

Lemma add_effect_size t name h t' :
  add_effect t name h t' -> current_size t' = current_size t.
Proof.
  intros [[-> _]|(p & s & m' & _ & _ & _ & _ & _ & _ & ->)]; reflexivity.
Qed.

Lemma add_without_resizing_size fuel (name : pointer) t t' :
  add_to_map_without_resizing fuel name t = Done t' ->
  current_size t' = current_size t.
Proof.
  intros H. apply add_without_resizing_effect in H as (h & _ & H).
  eapply add_effect_size; eauto.
Qed.

(** A name that is stored is met by the probe: nothing changes. *)
Lemma add_without_resizing_present fuel (name : string) t t' j :
  probe_chain t ->
  read_slot (hash_map t) j = Done (Occupied name) ->
  add_to_map_without_resizing fuel name t = Done t' ->
  t' = t.
Proof.
  intros Hchain Hj H. destruct (Hchain _ _ Hj) as (h & Hh & Hw).
  unfold add_to_map_without_resizing in H. cbn [text_of] in H.
  rewrite Hh in H. simpl in H.
  eapply (add_probe_present t (Caller name)); eauto.
Qed.

Lemma add_without_resizing_well_formed fuel (name : pointer) t t' :
  well_formed t ->
  add_to_map_without_resizing fuel name t = Done t' ->
  well_formed t'.
Proof.
  intros (Hsized & Hchain & Huniq) H.
  destruct (add_without_resizing_effect _ _ _ _ H) as (h & Hh & Heff).
  destruct Heff as [[-> _]|(p & s & m' & Hw & Hr & Hocc & _ & _ & Hwr & E)];
    [repeat split; auto|].
  assert (Hfresh : forall j k, cell_of name = Occupied k ->
            read_slot (hash_map t) j <> Done (Occupied k)).
  { intros j k Hk Hj. destruct name as [|n]; simpl in Hk; [discriminate|].
    inversion Hk; subst k.
    pose proof (add_without_resizing_present _ _ _ _ _ Hchain Hj H) as E'.
    rewrite E in E'. apply (f_equal number_of_items) in E'. simpl in E'. lia. }
  assert (Hm' : cell_of name <> Empty) by (destruct name; discriminate).
  subst t'. repeat split.
  - unfold sized. simpl. rewrite (write_slot_length _ _ _ _ Hwr). exact Hsized.
  - intros i k Hi. simpl in Hi.
    destruct (Z.eq_dec i p) as [->|Hne].
    + rewrite (read_write_same _ _ _ _ Hwr) in Hi. inversion Hi as [Hc].
      exists h. split.
      * destruct name as [|n]; simpl in Hc; [discriminate|].
        inversion Hc; subst k. exact Hh.
      * eapply walk_write; eauto.
    + rewrite (read_write_other _ _ _ _ _ Hwr Hne) in Hi.
      destruct (Hchain _ _ Hi) as (h0 & Hh0 & Hw0).
      exists h0. split; [exact Hh0|].
      eapply walk_write; eauto.
  - intros i j k Hi Hj. simpl in Hi, Hj.
    destruct (Z.eq_dec i p) as [->|Hi'], (Z.eq_dec j p) as [->|Hj']; auto.
    + rewrite (read_write_same _ _ _ _ Hwr) in Hi. inversion Hi as [Hc].
      rewrite (read_write_other _ _ _ _ _ Hwr Hj') in Hj.
      destruct (Hfresh _ _ Hc Hj).
    + rewrite (read_write_same _ _ _ _ Hwr) in Hj. inversion Hj as [Hc].
      rewrite (read_write_other _ _ _ _ _ Hwr Hi') in Hi.
      destruct (Hfresh _ _ Hc Hi).
    + rewrite (read_write_other _ _ _ _ _ Hwr Hi') in Hi.
      rewrite (read_write_other _ _ _ _ _ Hwr Hj') in Hj.
      eapply Huniq; eauto.
Qed.

(** Names already stored stay where they are. *)
Lemma add_without_resizing_keeps fuel (name : pointer) t t' k :
  add_to_map_without_resizing fuel name t = Done t' ->
  stored t k -> stored t' k.
Proof.
  intros H Hk. apply add_without_resizing_effect in H as (h & _ & Heff).
  destruct Heff as [[-> _]|(p & s & m' & Hw & Hr & Hocc & _ & _ & Hwr & ->)];
    auto.
  apply In_read_slot in Hk as [i Hi]. unfold stored. simpl.
  destruct (Z.eq_dec i p) as [->|Hne].
  - rewrite Hr in Hi. inversion Hi; subst s. discriminate.
  - apply read_slot_In with (i := i).
    rewrite (read_write_other _ _ _ _ _ Hwr Hne). exact Hi.
Qed.

(** After the call a caller's [name] is stored, unless its text is that
    of the marker and the probe ran into a tombstone. *)
Lemma add_without_resizing_stores fuel (name : string) t t' :
  add_to_map_without_resizing fuel name t = Done t' ->
  stored t' name \/ (name = tombstone /\ In Tombstone (hash_map t)).
Proof.
  intros H. apply add_without_resizing_effect in H as (h & _ & Heff).
  destruct Heff as [[-> (q & s & Hq & Hp)]
                   |(p & s & m' & Hw & Hr & Hocc & _ & _ & Hwr & ->)].
  - destruct s as [| |n]; simpl in Hp; try discriminate.
    + right. inversion Hp. split; [reflexivity|]. eapply read_slot_In; eauto.
    + left. inversion Hp; subst n. eapply read_slot_In; eauto.
  - left. unfold stored. simpl. eapply read_slot_In, read_write_same; eauto.
Qed.

(** A caller's own string never adds a tombstone. *)
Lemma add_without_resizing_no_tombstone fuel (name : string) t t' :
  add_to_map_without_resizing fuel name t = Done t' ->
  ~ In Tombstone (hash_map t) -> ~ In Tombstone (hash_map t').
Proof.
  intros H Hno Hin. apply add_without_resizing_effect in H as (h & _ & Heff).
  destruct Heff as [[-> _]|(p & s & m' & Hw & Hr & Hocc & _ & _ & Hwr & ->)];
    auto.
  simpl in Hin. apply In_read_slot in Hin as [i Hi].
  destruct (Z.eq_dec i p) as [->|Hne].
  - rewrite (read_write_same _ _ _ _ Hwr) in Hi. discriminate.
  - rewrite (read_write_other _ _ _ _ _ Hwr Hne) in Hi.
    apply Hno. eapply read_slot_In; eauto.
Qed.

(** For a caller's own string the counter and the number of stored names
    move together. *)
Lemma add_without_resizing_count fuel (name : string) t t' :
  add_to_map_without_resizing fuel name t = Done t' ->
  number_of_items t' - number_of_items t =
    count_occupied (hash_map t') - count_occupied (hash_map t)
  /\ number_of_items t <= number_of_items t' <= number_of_items t + 1.
Proof.
  intros H. apply add_without_resizing_effect in H as (h & _ & Heff).
  destruct Heff as [[-> _]|(p & s & m' & Hw & Hr & Hocc & _ & _ & Hwr & ->)];
    [lia|].
  simpl. rewrite (count_occupied_write _ _ _ _ _ Hwr Hr), Hocc. simpl. lia.
Qed.

(** Whatever the pointer, the counter moves by at most one. *)
Lemma add_without_resizing_count_le fuel (name : pointer) t t' :
  add_to_map_without_resizing fuel name t = Done t' ->
  number_of_items t <= number_of_items t' <= number_of_items t + 1.
Proof.
  intros H. apply add_without_resizing_effect in H as (h & _ & Heff).
  destruct Heff as [[-> _]|(p & s & m' & _ & _ & _ & _ & _ & _ & ->)];
    simpl; lia.
Qed.

(** An insertion into a table whose counter is within its bound leaves at
    most 1.4 entries per cell, so that the doubling of [add_to_map] is
    never refused. *)
Lemma add_without_resizing_room fuel (name : pointer) t t' :
  sized t -> count_bounded t ->
  add_to_map_without_resizing fuel name t = Done t' ->
  10 * number_of_items t' <= 14 * current_size t.
Proof.
  intros Hsized Hc H. unfold sized in Hsized.
  pose proof (count_used_bounds (hash_map t)) as Hb.
  apply add_without_resizing_effect in H as (h & _ & Heff).
  destruct Heff as [[-> _]|(p & s & m' & _ & Hr & _ & He & _ & _ & ->)].
  - destruct Hc as [Hc|Hc]; lia.
  - assert (Hin : In Empty (hash_map t)).
    { destruct He as [->|He]; [eapply read_slot_In; eauto | exact He]. }
    apply count_used_Empty in Hin. simpl. destruct Hc as [Hc|Hc]; lia.
Qed.

(** *** Rebuilding the table *)

Lemma read_blank new_size i s :
  read_slot (hash_map (blank new_size)) i = Done s -> s = Empty.
Proof.
  intros H. apply read_slot_Done in H as [_ H].
  simpl in H. apply lookup_replicate in H as [-> _]. reflexivity.
Qed.

Lemma blank_well_formed new_size : 0 <= new_size -> well_formed (blank new_size).
Proof.
  intros Hn. repeat split.
  - unfold sized. simpl. rewrite length_replicate. lia.
  - intros i k Hi. apply read_blank in Hi. discriminate.
  - intros i j k Hi. apply read_blank in Hi. discriminate.
Qed.

Lemma blank_no_tombstone new_size : ~ In Tombstone (hash_map (blank new_size)).
Proof.
  intros H. apply In_read_slot in H as [i Hi]. apply read_blank in Hi. discriminate.
Qed.

Lemma blank_count_exact new_size : count_exact (blank new_size).
Proof. unfold count_exact. simpl. rewrite count_occupied_replicate. reflexivity. Qed.

(** Whatever each re-insertion preserves, the whole loop preserves. *)
Lemma rehash_preserves (P : table -> Prop) fuel old_map :
  (forall (name : string) t t',
      P t -> add_to_map_without_resizing fuel name t = Done t' -> P t') ->
  forall remaining i t t',
    P t -> rehash fuel old_map i remaining t = Done t' -> P t'.
Proof.
  intros Hadd. induction remaining as [|remaining IH]; intros i t t' HP H;
    simpl in H.
  - inversion H; subst; auto.
  - destruct (read_slot old_map i) as [s| |]; simpl in H; try discriminate.
    destruct s as [| |name]; simpl in H; try (eapply IH; eauto; fail).
    destruct (add_to_map_without_resizing fuel name t) as [t1| |] eqn:E;
      simpl in H; try discriminate.
    eapply IH; [|exact H]. eapply Hadd; eauto.
Qed.

(** Every name of the old array is stored in the new one. *)
Lemma rehash_stores fuel old_map : forall remaining i t t',
  rehash fuel old_map i remaining t = Done t' ->
  ~ In Tombstone (hash_map t) ->
  forall q k,
    i <= q < i + Z.of_nat remaining ->
    read_slot old_map q = Done (Occupied k) ->
    stored t' k.
Proof.
  induction remaining as [|remaining IH]; intros i t t' H Hno q k Hq Hk;
    simpl in H; [lia|].
  destruct (read_slot old_map i) as [s| |] eqn:Hi; simpl in H; try discriminate.
  destruct (match s with
            | Occupied name => add_to_map_without_resizing fuel name t
            | _ => Done t
            end) as [t1| |] eqn:E; simpl in H; try discriminate.
  assert (Hno1 : ~ In Tombstone (hash_map t1)).
  { destruct s; try (inversion E; subst; auto; fail).
    eapply add_without_resizing_no_tombstone; eauto. }
  destruct (Z.eq_dec q i) as [->|Hne].
  - rewrite Hk in Hi. inversion Hi; subst s.
    apply (rehash_preserves (fun t => stored t k) fuel old_map) in H; auto.
    + intros name t0 t0' Hs Ha. eapply add_without_resizing_keeps; eauto.
    + destruct (add_without_resizing_stores _ _ _ _ E) as [Hs|[_ Hin]]; tauto.
  - eapply IH; eauto. lia.
Qed.

Lemma rehash_count fuel old_map : forall remaining i t t',
  rehash fuel old_map i remaining t = Done t' ->
  number_of_items t' <= number_of_items t + Z.of_nat remaining.
Proof.
  induction remaining as [|remaining IH]; intros i t t' H; simpl in H.
  - inversion H; subst. lia.
  - destruct (read_slot old_map i) as [s| |]; simpl in H; try discriminate.
    destruct (match s with
              | Occupied name => add_to_map_without_resizing fuel name t
              | _ => Done t
              end) as [t1| |] eqn:E; simpl in H; try discriminate.
    apply IH in H.
    assert (number_of_items t1 <= number_of_items t + 1); [|lia].
    destruct s; try (inversion E; subst; lia).
    apply add_without_resizing_count in E. lia.
Qed.

(** [resize_map] returns the table as it was, or the rebuilt one. *)
Lemma resize_map_cases fuel new_size t t' :
  resize_map fuel new_size t = Done t' ->
  (t' = t /\
   (new_size < 1 \/ load_factor_exceeded (number_of_items t) new_size = true))
  \/
  (1 <= new_size /\
   load_factor_exceeded (number_of_items t) new_size = false /\
   rehash fuel (hash_map t) 0 (Z.to_nat (current_size t)) (blank new_size)
     = Done t').
Proof.
  unfold resize_map. intros H.
  destruct (Z.ltb_spec new_size 1) as [Hn|Hn]; simpl in H.
  { left. inversion H; auto. }
  destruct (load_factor_exceeded (number_of_items t) new_size) eqn:Hl.
  { left. inversion H; auto. }
  right. repeat split; auto.
  destruct (Z.ltb_spec 0 (current_size t)) as [Hs|Hs]; [exact H|].
  replace (Z.to_nat (current_size t)) with 0%nat by lia. exact H.
Qed.

Lemma rehash_size fuel old_map remaining i t t' :
  rehash fuel old_map i remaining t = Done t' ->
  current_size t' = current_size t.
Proof.
  intros H.
  apply (rehash_preserves (fun t0 => current_size t0 = current_size t)
           fuel old_map) in H; auto.
  intros name t0 t0' E Ha. rewrite <- E. eapply add_without_resizing_size; eauto.
Qed.

Lemma resize_map_well_formed fuel new_size t t' :
  well_formed t -> resize_map fuel new_size t = Done t' -> well_formed t'.
Proof.
  intros Hwf H. apply resize_map_cases in H as [[-> _]|(Hn & _ & H)]; auto.
  apply (rehash_preserves well_formed fuel (hash_map t)) in H; auto.
  - intros name t0 t0' Hw Ha. eapply add_without_resizing_well_formed; eauto.
  - apply blank_well_formed. lia.
Qed.

Lemma resize_map_keeps fuel new_size t t' k :
  sized t -> resize_map fuel new_size t = Done t' ->
  stored t k -> stored t' k.
Proof.
  intros Hsized H Hk. apply resize_map_cases in H as [[-> _]|(Hn & _ & H)]; auto.
  apply In_read_slot in Hk as [q Hq].
  eapply rehash_stores; eauto using blank_no_tombstone.
  apply read_slot_range in Hq. unfold sized in Hsized. lia.
Qed.

Lemma rehash_count_exact fuel old_map remaining i t t' :
  rehash fuel old_map i remaining t = Done t' ->
  count_exact t -> count_exact t'.
Proof.
  intros H Hc.
  apply (rehash_preserves count_exact fuel old_map) in H; auto.
  unfold count_exact. intros name t0 t0' E Ha.
  apply add_without_resizing_count in Ha. lia.
Qed.

Lemma resize_map_count_exact fuel new_size t t' :
  count_exact t -> resize_map fuel new_size t = Done t' -> count_exact t'.
Proof.
  intros Hc H. apply resize_map_cases in H as [[-> _]|(Hn & _ & H)]; auto.
  eapply rehash_count_exact; eauto using blank_count_exact.
Qed.

Lemma resize_map_count_bounded fuel new_size t t' :
  count_bounded t -> resize_map fuel new_size t = Done t' -> count_bounded t'.
Proof.
  intros Hc H. apply resize_map_cases in H as [[-> _]|(Hn & _ & H)]; auto.
  apply rehash_count_exact in H; [|apply blank_count_exact].
  right. unfold count_exact in H. rewrite H. apply count_occupied_used.
Qed.

(** *** Insertion *)

Lemma add_to_map_cases fuel name t t' :
  add_to_map fuel name t = Done t' ->
  exists t1 t2,
    (if current_size t =? 0 then resize_map fuel 10 t else Done t) = Done t1
    /\ add_to_map_without_resizing fuel name t1 = Done t2
    /\ ((load_factor_exceeded (number_of_items t2) (current_size t2) = false
         /\ t' = t2)
        \/
        (load_factor_exceeded (number_of_items t2) (current_size t2) = true
         /\ resize_map fuel (current_size t2 * 2) t2 = Done t')).
Proof.
  unfold add_to_map. intros H.
  destruct (if current_size t =? 0 then resize_map fuel 10 t else Done t)
    as [t1| |] eqn:E1; simpl in H; try discriminate.
  destruct (add_to_map_without_resizing fuel name t1) as [t2| |] eqn:E2;
    simpl in H; try discriminate.
  exists t1, t2. repeat split; auto.
  destruct (load_factor_exceeded (number_of_items t2) (current_size t2)).
  - right. split; [reflexivity|].
    destruct (checked_int (current_size t2 * 2)) as [d| |] eqn:Ed;
      simpl in H; try discriminate.
    apply checked_int_Done in Ed as [-> _]. exact H.
  - left. inversion H; auto.
Qed.

(** A property that the non-growing insertion and [resize_map] preserve
    is preserved by [add_to_map]. *)
Lemma add_to_map_preserves (P : table -> Prop) fuel (name : pointer) t t' :
  (forall t0 t0',
      P t0 -> add_to_map_without_resizing fuel name t0 = Done t0' -> P t0') ->
  (forall n t0 t0', P t0 -> resize_map fuel n t0 = Done t0' -> P t0') ->
  P t -> add_to_map fuel name t = Done t' -> P t'.
Proof.
  intros Hadd Hres HP H.
  apply add_to_map_cases in H as (t1 & t2 & H1 & H2 & H3).
  assert (P t1).
  { destruct (current_size t =? 0); [eauto|]. inversion H1; subst; auto. }
  assert (P t2) by eauto.
  destruct H3 as [[_ ->]|[_ H3]]; eauto.
Qed.

Lemma add_to_map_well_formed fuel (name : pointer) t t' :
  well_formed t -> add_to_map fuel name t = Done t' -> well_formed t'.
Proof.
  apply add_to_map_preserves.
  - intros t0 t0'. apply add_without_resizing_well_formed.
  - intros n t0 t0'. apply resize_map_well_formed.
Qed.

Lemma add_to_map_count_exact fuel (name : string) t t' :
  count_exact t -> add_to_map fuel name t = Done t' -> count_exact t'.
Proof.
  apply add_to_map_preserves.
  - unfold count_exact. intros t0 t0' Hc Ha.
    apply add_without_resizing_count in Ha. lia.
  - intros n t0 t0'. apply resize_map_count_exact.
Qed.

Lemma add_to_map_keeps fuel (name : pointer) t t' k :
  well_formed t -> add_to_map fuel name t = Done t' ->
  stored t k -> stored t' k.
Proof.
  intros Hwf H Hk.
  apply (add_to_map_preserves (fun t0 => well_formed t0 /\ stored t0 k)
           fuel name t t'); auto.
  - intros t0 t0' [Hw Hs] Ha.
    split; [eapply add_without_resizing_well_formed | eapply add_without_resizing_keeps]; eauto.
  - intros n t0 t0' [Hw Hs] Ha.
    split; [eapply resize_map_well_formed | eapply resize_map_keeps]; eauto.
    apply Hw.
Qed.

(** *** Deletion *)

Lemma remove_from_map_cases fuel name t t' r :
  remove_from_map fuel name t = Done (t', r) ->
  (t' = t /\ r = 0)
  \/
  (exists p s m',
     read_slot (hash_map t) p = Done s /\
     pointee s = Some name /\
     write_slot (hash_map t) p Tombstone = Done m' /\
     t' = mkTable m' (current_size t) (number_of_items t - 1) /\
     r = 1).
Proof.
  unfold remove_from_map, index_of. intros H.
  destruct (hash_function t name) as [h| |]; simpl in H; try discriminate.
  destruct (index_probe fuel name t h) as [p| |] eqn:Hp; simpl in H;
    try discriminate.
  destruct (Z.eqb_spec p (-1)) as [->|Hne].
  { left. inversion H; auto. }
  apply index_probe_Done in Hp as [->|(s & Hs & Hpt)]; [lia|].
  destruct (write_slot (hash_map t) p Tombstone) as [m'| |] eqn:Hw;
    simpl in H; try discriminate.
  destruct (checked_int (number_of_items t - 1)) as [c| |] eqn:Hc;
    simpl in H; try discriminate.
  apply checked_int_Done in Hc as [-> _]. inversion H; subst.
  right. exists p, s, m'. auto.
Qed.

Lemma remove_from_map_well_formed fuel name t t' r :
  well_formed t -> remove_from_map fuel name t = Done (t', r) ->
  well_formed t'.
Proof.
  intros (Hsized & Hchain & Huniq) H.
  apply remove_from_map_cases in H
    as [[-> _]|(p & s & m' & Hr & Hp & Hw & -> & _)]; [repeat split; auto|].
  assert (Hold : forall i k,
             read_slot m' i = Done (Occupied k) ->
             read_slot (hash_map t) i = Done (Occupied k)).
  { intros i k Hi. destruct (Z.eq_dec i p) as [->|Hne].
    - rewrite (read_write_same _ _ _ _ Hw) in Hi. discriminate.
    - rewrite (read_write_other _ _ _ _ _ Hw Hne) in Hi. exact Hi. }
  repeat split.
  - unfold sized. simpl. rewrite (write_slot_length _ _ _ _ Hw). exact Hsized.
  - intros i k Hi. simpl in Hi. apply Hold in Hi.
    destruct (Hchain _ _ Hi) as (h & Hh & Hwalk).
    exists h. split; [exact Hh|].
    eapply walk_write; eauto; discriminate.
  - intros i j k Hi Hj. simpl in Hi, Hj. eapply Huniq; eauto.
Qed.

Lemma remove_from_map_keeps fuel name t t' r k :
  remove_from_map fuel name t = Done (t', r) ->
  k <> name -> stored t k -> stored t' k.
Proof.
  intros H Hne Hk.
  apply remove_from_map_cases in H
    as [[-> _]|(p & s & m' & Hr & Hp & Hw & -> & _)]; auto.
  apply In_read_slot in Hk as [i Hi]. unfold stored. simpl.
  destruct (Z.eq_dec i p) as [->|Hip].
  - rewrite Hr in Hi. inversion Hi; subst s. simpl in Hp. congruence.
  - apply read_slot_In with (i := i).
    rewrite (read_write_other _ _ _ _ _ Hw Hip). exact Hi.
Qed.

Lemma remove_from_map_count_bounded fuel name t t' r :
  count_bounded t -> remove_from_map fuel name t = Done (t', r) ->
  count_bounded t'.
Proof.
  unfold count_bounded. intros Hc H.
  apply remove_from_map_cases in H
    as [[-> _]|(p & s & m' & Hr & Hp & Hw & -> & _)]; auto.
  simpl. rewrite (count_used_write _ _ _ _ _ Hw Hr). simpl.
  destruct s; simpl in *; try discriminate; lia.
Qed.

(** Deleting a name other than the marker's text keeps the counter exact. *)
Lemma remove_from_map_count_exact fuel name t t' r :
  name <> tombstone ->
  count_exact t -> remove_from_map fuel name t = Done (t', r) ->
  count_exact t'.
Proof.
  unfold count_exact. intros Hne Hc H.
  apply remove_from_map_cases in H
    as [[-> _]|(p & s & m' & Hr & Hp & Hw & -> & _)]; auto.
  simpl. rewrite (count_occupied_write _ _ _ _ _ Hw Hr). simpl.
  destruct s as [| |n]; simpl in *; try congruence. lia.
Qed.

(** *** The load factor *)

Lemma load_factor_exceeded_pos items size :
  0 < size -> load_factor_exceeded items size = (7 * size <? 10 * items).
Proof.
  intros Hs. unfold load_factor_exceeded.
  destruct (Z.ltb_spec 0 size); [reflexivity | lia].
Qed.

Lemma add_to_map_load_ok fuel (name : pointer) t t' :
  invariant t -> add_to_map fuel name t = Done t' ->
  0 < current_size t' /\ load_ok t'.
Proof.
  intros Hinv H.
  apply add_to_map_cases in H as (t1 & t2 & H1 & H2 & H3).
  assert (Hinv1 : invariant t1).
  { destruct (current_size t =? 0); [|inversion H1; subst; auto].
    destruct Hinv.
    split; [eapply resize_map_well_formed | eapply resize_map_count_bounded];
      eauto. }
  destruct Hinv1 as [Hwf1 Hc1].
  assert (Hwf2 : well_formed t2)
    by (eapply add_without_resizing_well_formed; eauto).
  pose proof (add_without_resizing_room _ _ _ _ (proj1 Hwf1) Hc1 H2) as Hroom.
  pose proof (add_without_resizing_size _ _ _ _ H2) as Hsz2.
  assert (Hpos : 0 < current_size t2).
  { destruct (add_without_resizing_effect _ _ _ _ H2) as (h & Hh & _).
    apply hash_function_Done in Hh. rewrite <- Hsz2 in Hh.
    destruct Hwf2 as [Hsized _]. unfold sized in Hsized. lia. }
  destruct H3 as [[Hl ->]|[Hl H3]].
  - split; [exact Hpos|]. rewrite load_factor_exceeded_pos in Hl by exact Hpos.
    unfold load_ok. lia.
  - destruct Hwf2 as [Hsized _]. unfold sized in Hsized.
    apply resize_map_cases in H3 as [[_ [Hn|Hx]]|(Hn & _ & H3)].
    + lia.
    + rewrite load_factor_exceeded_pos in Hx by lia. lia.
    + pose proof (rehash_size _ _ _ _ _ _ H3) as Hsz.
      apply rehash_count in H3. simpl in *.
      unfold load_ok. rewrite Hsz. split; lia.
Qed.

Lemma add_to_map_invariant fuel (name : pointer) t t' :
  invariant t -> add_to_map fuel name t = Done t' -> invariant t'.
Proof.
  intros Hinv H. split; [eapply add_to_map_well_formed; eauto; apply Hinv|].
  left. eapply add_to_map_load_ok; eauto.
Qed.

(** *** Sequences of calls *)

Lemma uninitialised_well_formed : well_formed uninitialised.
Proof.
  repeat split.
  - intros i k Hi. apply read_slot_Done in Hi as [_ Hi]. discriminate.
  - intros i j k Hi. apply read_slot_Done in Hi as [_ Hi]. discriminate.
Qed.

Lemma exec_Done fuel o t t' r :
  exec fuel o t = Done (t', r) ->
  match o with
  | Resize new_size => resize_map fuel new_size t = Done t'
  | Add name => add_to_map fuel name t = Done t'
  | Remove name => remove_from_map fuel name t = Done (t', r)
  | Search name => t' = t
  end.
Proof.
  destruct o as [n|n|n|n]; simpl; intros H; auto.
  - destruct (resize_map fuel n t); simpl in H; congruence.
  - destruct (add_to_map fuel n t); simpl in H; congruence.
  - destruct (search_map fuel n t); simpl in H; congruence.
Qed.

Lemma exec_invariant fuel o t t' r :
  invariant t -> exec fuel o t = Done (t', r) -> invariant t'.
Proof.
  intros [Hwf Hc] H. apply exec_Done in H. destruct o as [n|n|n|n].
  - split; [eapply resize_map_well_formed | eapply resize_map_count_bounded];
      eauto.
  - eapply add_to_map_invariant; eauto. split; auto.
  - split; [eapply remove_from_map_well_formed
           | eapply remove_from_map_count_bounded]; eauto.
  - subst. split; auto.
Qed.

Lemma exec_keeps fuel o t t' r k :
  well_formed t -> exec fuel o t = Done (t', r) ->
  o <> Remove k -> stored t k -> stored t' k.
Proof.
  intros Hwf H Hne Hk. apply exec_Done in H. destruct o as [n|n|n|n].
  - eapply resize_map_keeps; eauto. apply Hwf.
  - eapply add_to_map_keeps; eauto.
  - eapply remove_from_map_keeps; eauto. congruence.
  - subst. auto.
Qed.

Lemma run_cons fuel o ops t t' :
  run fuel (o :: ops) t = Done t' ->
  exists t1 r, exec fuel o t = Done (t1, r) /\ run fuel ops t1 = Done t'.
Proof.
  simpl. destruct (exec fuel o t) as [[t1 r]| |]; simpl; try discriminate.
  eauto.
Qed.

Lemma run_invariant fuel ops : forall t t',
  invariant t -> run fuel ops t = Done t' -> invariant t'.
Proof.
  induction ops as [|o ops IH]; intros t t' Hinv H.
  - inversion H; subst; auto.
  - apply run_cons in H as (t1 & r & H1 & H2).
    eapply IH; [|exact H2]. eapply exec_invariant; eauto.
Qed.

Lemma run_keeps fuel k ops : forall t t',
  invariant t -> run fuel ops t = Done t' ->
  ~ In (Remove k) ops -> stored t k -> stored t' k.
Proof.
  induction ops as [|o ops IH]; intros t t' Hinv H Hnot Hk.
  - inversion H; subst; auto.
  - apply run_cons in H as (t1 & r & H1 & H2).
    eapply IH; [eapply exec_invariant; eauto | exact H2 | |].
    + intros Hin. apply Hnot. right. exact Hin.
    + eapply exec_keeps; eauto; [apply Hinv|].
      intros ->. apply Hnot. left. reflexivity.
Qed.

Lemma reachable_invariant t : reachable t -> invariant t.
Proof.
  intros (fuel & ops & H). eapply run_invariant; [|exact H].
  split; [apply uninitialised_well_formed | left; simpl; lia].
Qed.

(** *** Searching *)

Lemma search_map_stored t name :
  probe_chain t -> stored t name ->
  exists fuel0, forall fuel, (fuel0 <= fuel)%nat ->
    search_map fuel name t = Done 1.
Proof.
  intros Hchain Hk. apply In_read_slot in Hk as [i Hi].
  destruct (Hchain _ _ Hi) as (h & Hh & Hw).
  destruct (index_probe_finds _ name _ _ _ Hw Hi eq_refl) as [fuel0 Hf].
  exists fuel0. intros fuel Hfuel.
  destruct (Hf fuel Hfuel) as (r & s' & Hp & Hr & _).
  unfold search_map, index_of. rewrite Hh. simpl. rewrite Hp. simpl.
  apply read_slot_range in Hr.
  destruct (Z.eqb_spec r (-1)); [lia | reflexivity].
Qed.

(** An insertion of a name other than the marker's text stores it. *)
Lemma add_to_map_stores fuel (name : string) t t' :
  well_formed t -> name <> tombstone ->
  add_to_map fuel name t = Done t' -> stored t' name.
Proof.
  intros Hwf Hne H.
  apply add_to_map_cases in H as (t1 & t2 & H1 & H2 & H3).
  assert (Hwf1 : well_formed t1).
  { destruct (current_size t =? 0); [|inversion H1; subst; auto].
    eapply resize_map_well_formed; eauto. }
  assert (Hwf2 : well_formed t2)
    by (eapply add_without_resizing_well_formed; eauto).
  assert (Hs2 : stored t2 name).
  { destruct (add_without_resizing_stores _ _ _ _ H2) as [Hs|[E _]];
      [exact Hs | contradiction]. }
  destruct H3 as [[_ ->]|[_ H3]]; auto.
  eapply resize_map_keeps; eauto. apply Hwf2.
Qed.

(** *** Clean sequences *)

(** The rebuilt table counts at most the names of the old cells visited. *)
Lemma rehash_count_occupied fuel old_map : forall remaining i t t',
  0 <= i ->
  rehash fuel old_map i remaining t = Done t' ->
  number_of_items t' <=
    number_of_items t + count_occupied (drop (Z.to_nat i) old_map).
Proof.
  induction remaining as [|remaining IH]; intros i t t' Hi H; simpl in H.
  - inversion H; subst.
    pose proof (count_occupied_bounds (drop (Z.to_nat i) old_map)). lia.
  - destruct (read_slot old_map i) as [s| |] eqn:Hr; simpl in H;
      try discriminate.
    destruct (match s with
              | Occupied name => add_to_map_without_resizing fuel name t
              | _ => Done t
              end) as [t1| |] eqn:E; simpl in H; try discriminate.
    apply IH in H; [|lia].
    apply read_slot_Done in Hr as [_ Hr].
    rewrite (drop_S _ _ _ Hr). simpl.
    replace (Z.to_nat (i + 1)) with (S (Z.to_nat i)) in H by lia.
    destruct s; simpl; try (inversion E; subst; lia).
    apply add_without_resizing_count in E. lia.
Qed.

Lemma resize_map_tidy fuel new_size t t' :
  tidy t -> resize_map fuel new_size t = Done t' -> tidy t'.
Proof.
  intros (Hwf & Hc & Hl) H.
  split; [eapply resize_map_well_formed; eauto|].
  split; [eapply resize_map_count_exact; eauto|].
  apply resize_map_cases in H as [[-> _]|(Hn & Hx & H)]; auto.
  pose proof (rehash_size _ _ _ _ _ _ H) as Hsz.
  apply rehash_count_occupied in H; [|lia].
  rewrite load_factor_exceeded_pos in Hx by lia.
  unfold load_ok, count_exact in *. rewrite Hsz. simpl in *.
  rewrite drop_0 in H. lia.
Qed.

Lemma exec_tidy fuel o t t' r :
  tidy t -> clean o -> exec fuel o t = Done (t', r) -> tidy t'.
Proof.
  intros Ht Hclean H. pose proof Ht as (Hwf & Hc & Hl).
  apply exec_Done in H. destruct o as [n|n|n|n].
  - eapply resize_map_tidy; eauto.
  - destruct n as [|n]; [destruct Hclean; reflexivity|].
    split; [eapply add_to_map_well_formed; eauto|].
    split; [eapply add_to_map_count_exact; eauto|].
    eapply add_to_map_load_ok; [|exact H].
    split; [exact Hwf | left; exact Hl].
  - split; [eapply remove_from_map_well_formed; eauto|].
    split; [eapply remove_from_map_count_exact; eauto|].
    apply remove_from_map_cases in H
      as [[-> _]|(p & s & m' & _ & _ & _ & -> & _)]; auto.
    unfold load_ok in *. simpl. lia.
  - subst. exact Ht.
Qed.

Lemma run_tidy fuel ops : forall t t',
  tidy t -> Forall clean ops -> run fuel ops t = Done t' -> tidy t'.
Proof.
  induction ops as [|o ops IH]; intros t t' Ht Hclean H.
  - inversion H; subst; auto.
  - apply run_cons in H as (t1 & r & H1 & H2).
    inversion Hclean; subst.
    eapply IH; [|eassumption|exact H2]. eapply exec_tidy; eauto.
Qed.

Lemma uninitialised_tidy : tidy uninitialised.
Proof.
  split; [apply uninitialised_well_formed|].
  split; [reflexivity | unfold load_ok; simpl; lia].
Qed.

(** Inserting a pointer whose text the probe of its hash meets returns
    and changes nothing, in a table that is not over-loaded. *)
Lemma add_to_map_present_at t (name : pointer) h i s :
  sized t -> load_ok t ->
  hash_function t (text_of name) = Done h ->
  walk t h i ->
  read_slot (hash_map t) i = Done s ->
  pointee s = Some (text_of name) ->
  exists fuel0, forall fuel, (fuel0 <= fuel)%nat ->
    add_to_map fuel name t = Done t.
Proof.
  intros Hsized Hl Hh Hw Hi Hp.
  destruct (add_probe_present_returns _ name _ _ _ Hw Hi Hp) as [fuel0 Hf].
  exists fuel0. intros fuel Hfuel.
  pose proof (hash_function_Done _ _ _ Hh) as Hsz.
  unfold add_to_map.
  destruct (Z.eqb_spec (current_size t) 0) as [E|_]; [contradiction|].
  simpl. unfold add_to_map_without_resizing. rewrite Hh. simpl.
  rewrite (Hf fuel (-1) Hfuel). simpl.
  unfold sized in Hsized. unfold load_ok in Hl.
  rewrite load_factor_exceeded_pos by lia.
  destruct (Z.ltb_spec (7 * current_size t) (10 * number_of_items t));
    [lia | reflexivity].
Qed.

(** Inserting a name that is stored returns and changes nothing, in a
    table that is not over-loaded. *)
Lemma add_to_map_present t (name : string) :
  well_formed t -> load_ok t -> stored t name ->
  exists fuel0, forall fuel, (fuel0 <= fuel)%nat ->
    add_to_map fuel name t = Done t.
Proof.
  intros (Hsized & Hchain & _) Hl Hk. apply In_read_slot in Hk as [i Hi].
  destruct (Hchain _ _ Hi) as (h & Hh & Hw).
  apply (add_to_map_present_at t (Caller name) h i (Occupied name)); auto.
Qed.

(** *** Sequences of insertions *)

Lemma add_without_resizing_settled fuel (name : pointer) t t' :
  settled t ->
  add_to_map_without_resizing fuel name t = Done t' ->
  settled t'.
Proof.
  intros (Hsized & Hchain & Huniq) H.
  destruct (add_without_resizing_effect _ _ _ _ H) as (h & Hh & Heff).
  destruct Heff as [[-> _]|(p & s & m' & Hw & Hr & Hocc & _ & _ & Hwr & E)];
    [repeat split; auto|].
  assert (Hfresh : forall j s0, read_slot (hash_map t) j = Done s0 ->
                                pointee s0 <> Some (text_of name)).
  { intros j s0 Hj Hp. destruct (Hchain _ _ _ Hj Hp) as (h0 & Hh0 & Hw0).
    unfold add_to_map_without_resizing in H. rewrite Hh0 in H. simpl in H.
    pose proof (add_probe_present _ _ _ _ _ Hw0 Hj Hp _ _ _ H) as E'.
    rewrite E in E'. apply (f_equal number_of_items) in E'. simpl in E'. lia. }
  assert (Hcell : pointee (cell_of name) = Some (text_of name))
    by (destruct name; reflexivity).
  assert (Hm' : cell_of name <> Empty) by (destruct name; discriminate).
  subst t'. repeat split.
  - unfold sized. simpl. rewrite (write_slot_length _ _ _ _ Hwr). exact Hsized.
  - intros i s0 text Hi Hp. simpl in Hi.
    destruct (Z.eq_dec i p) as [->|Hne].
    + rewrite (read_write_same _ _ _ _ Hwr) in Hi.
      assert (E : text = text_of name) by congruence. subst text.
      exists h. split; [exact Hh|]. eapply walk_write; eauto.
    + rewrite (read_write_other _ _ _ _ _ Hwr Hne) in Hi.
      destruct (Hchain _ _ _ Hi Hp) as (h0 & Hh0 & Hw0).
      exists h0. split; [exact Hh0|]. eapply walk_write; eauto.
  - intros i j s1 s2 text Hi Hj Hp1 Hp2. simpl in Hi, Hj.
    destruct (Z.eq_dec i p) as [->|Hi'], (Z.eq_dec j p) as [->|Hj']; auto.
    + rewrite (read_write_same _ _ _ _ Hwr) in Hi.
      rewrite (read_write_other _ _ _ _ _ Hwr Hj') in Hj.
      destruct (Hfresh _ _ Hj). congruence.
    + rewrite (read_write_same _ _ _ _ Hwr) in Hj.
      rewrite (read_write_other _ _ _ _ _ Hwr Hi') in Hi.
      destruct (Hfresh _ _ Hi). congruence.
    + rewrite (read_write_other _ _ _ _ _ Hwr Hi') in Hi.
      rewrite (read_write_other _ _ _ _ _ Hwr Hj') in Hj.
      eapply Huniq; eauto.
Qed.

Lemma blank_settled new_size : 0 <= new_size -> settled (blank new_size).
Proof.
  intros Hn. repeat split.
  - unfold sized. simpl. rewrite length_replicate. lia.
  - intros i s text Hi Hp. apply read_blank in Hi. subst s. discriminate.
  - intros i j s s' text Hi _ Hp. apply read_blank in Hi. subst s.
    discriminate.
Qed.

Lemma resize_map_settled fuel new_size t t' :
  settled t -> resize_map fuel new_size t = Done t' -> settled t'.
Proof.
  intros Hs H. apply resize_map_cases in H as [[-> _]|(Hn & _ & H)]; auto.
  apply (rehash_preserves settled fuel (hash_map t)) in H; auto.
  - intros name t0 t0' Hw Ha. eapply add_without_resizing_settled; eauto.
  - apply blank_settled. lia.
Qed.

Lemma add_to_map_settled fuel (name : pointer) t t' :
  settled t -> add_to_map fuel name t = Done t' -> settled t'.
Proof.
  apply add_to_map_preserves.
  - intros t0 t0'. apply add_without_resizing_settled.
  - intros n t0 t0'. apply resize_map_settled.
Qed.

Lemma uninitialised_settled : settled uninitialised.
Proof.
  repeat split.
  - intros i s text Hi. apply read_slot_Done in Hi as [_ Hi]. discriminate.
  - intros i j s s' text Hi. apply read_slot_Done in Hi as [_ Hi].
    discriminate.
Qed.

(** Insertions alone keep every cell on the probe of its text, and the
    load factor within its ceiling. *)
Lemma run_adds fuel (names : list pointer) : forall t t',
  invariant t -> settled t -> load_ok t ->
  run fuel (map Add names) t = Done t' ->
  invariant t' /\ settled t' /\ load_ok t'.
Proof.
  induction names as [|n names IH]; intros t t' Hinv Hs Hl H.
  - inversion H; subst; auto.
  - change (map Add (n :: names)) with (Add n :: map Add names) in H.
    apply run_cons in H as (t1 & r & H1 & H2).
    apply exec_Done in H1.
    eapply IH; [| | |exact H2].
    + eapply add_to_map_invariant; eauto.
    + eapply add_to_map_settled; eauto.
    + eapply add_to_map_load_ok; eauto.
Qed.

(** In a settled table every cell with a name is a cell with a text:
    the table is well formed. *)
Lemma settled_unique_keys t : settled t -> unique_keys t.
Proof.
  intros (_ & _ & Hu) i j name Hi Hj. eapply Hu; eauto.
Qed.

(** *** Tables without a null cell *)

Lemma next_index_range t i :
  0 <= i < current_size t -> 0 <= next_index t i < current_size t.
Proof.
  intros Hi. unfold next_index. rewrite Z.geb_leb.
  destruct (Z.leb_spec (current_size t) (i + 1)); lia.
Qed.

(** In a table where every cell is non-null and none has the text
    [name], the probe of [index_of] never ends. *)
Lemma index_probe_full t name :
  sized t ->
  (forall s, In s (hash_map t) ->
             exists text, pointee s = Some text /\ text <> name) ->
  forall fuel i, 0 <= i < current_size t ->
    index_probe fuel name t i = OutOfFuel.
Proof.
  intros Hsized Hfull. induction fuel as [|fuel IH]; intros i Hi;
    [reflexivity|].
  cbn [index_probe].
  destruct (read_slot_total (hash_map t) i) as [s Hs];
    [unfold sized in Hsized; lia|].
  rewrite Hs. cbn [bind].
  destruct (Hfull s (read_slot_In _ _ _ Hs)) as (text & -> & Hne).
  destruct (String.eqb_spec name text) as [E|_]; [congruence|].
  apply IH, next_index_range, Hi.
Qed.

(** ... and neither does the probe of [add_to_map_without_resizing]. *)
Lemma add_probe_full t (name : pointer) :
  sized t ->
  (forall s, In s (hash_map t) ->
             exists text, pointee s = Some text /\ text <> text_of name) ->
  forall fuel i ft, 0 <= i < current_size t ->
    add_probe fuel name t i ft = OutOfFuel.
Proof.
  intros Hsized Hfull. induction fuel as [|fuel IH]; intros i ft Hi;
    [reflexivity|].
  cbn [add_probe].
  destruct (read_slot_total (hash_map t) i) as [s Hs];
    [unfold sized in Hsized; lia|].
  rewrite Hs. cbn [bind].
  destruct (Hfull s (read_slot_In _ _ _ Hs)) as (text & -> & Hne).
  destruct (String.eqb_spec text (text_of name)) as [E|_]; [congruence|].
  apply IH, next_index_range, Hi.
Qed.

(** *** The sum of a long key *)

Lemma wrap_int_add a b : wrap_int (wrap_int a + b) = wrap_int (a + b).
Proof.
  unfold wrap_int. f_equal.
  replace ((a + 2147483648) mod 4294967296 - 2147483648 + b + 2147483648)
    with ((a + 2147483648) mod 4294967296 + b) by lia.
  rewrite Zplus_mod_idemp_l. f_equal. lia.
Qed.

Lemma sum_codes_repeat c n : forall sum,
  sum_codes (repeat_char c n) (wrap_int sum) =
  wrap_int (sum + Z.of_nat n * char_code c).
Proof.
  induction n as [|n IH]; intros sum; cbn [repeat_char sum_codes].
  - f_equal. lia.
  - rewrite wrap_int_add, IH. f_equal. lia.
Qed.

Lemma sum_codes_long_key : sum_codes long_key 0 = -2147483423.
Proof.
  unfold long_key. change 0 with (wrap_int 0) at 1.
  rewrite sum_codes_repeat, Z2Nat.id by lia.
  replace (char_code "a") with 97 by (unfold char_code; destruct char_is_signed; reflexivity).
  reflexivity.
Qed.

Lemma hash_function_long_key : hash_function (blank 10) long_key = Done (-3).
Proof. unfold hash_function. rewrite sum_codes_long_key. reflexivity. Qed.

(** *** Where the probes stay inside the array *)

(** A key whose codes add up to a non-negative sum hashes into the array. *)
Lemma hash_function_range t name :
  0 < current_size t -> 0 <= sum_codes name 0 ->
  exists h, hash_function t name = Done h /\ 0 <= h < current_size t.
Proof.
  intros Hs Hsum. unfold hash_function.
  destruct (Z.eqb_spec (current_size t) 0); [lia|].
  destruct (Z.eqb_spec (current_size t) (-1)); [lia|].
  rewrite andb_false_r. eexists. split; [reflexivity|].
  apply Z.rem_bound_pos; lia.
Qed.

(** ... and its hash is the sum modulo the capacity. *)
Lemma hash_function_mod t name :
  0 < current_size t -> 0 <= sum_codes name 0 ->
  hash_function t name = Done (sum_codes name 0 mod current_size t).
Proof.
  intros Hs Hsum. unfold hash_function.
  destruct (Z.eqb_spec (current_size t) 0); [lia|].
  destruct (Z.eqb_spec (current_size t) (-1)); [lia|].
  rewrite andb_false_r, Z.rem_mod_nonneg by lia. reflexivity.
Qed.

Lemma index_probe_defined t name :
  sized t ->
  forall fuel i f, 0 <= i < current_size t ->
    index_probe fuel name t i <> Undefined f.
Proof.
  intros Hsized. induction fuel as [|fuel IH]; intros i f Hi;
    [discriminate|].
  cbn [index_probe].
  destruct (read_slot_total (hash_map t) i) as [s Hs];
    [unfold sized in Hsized; lia|].
  rewrite Hs. cbn [bind].
  destruct (pointee s) as [text|]; [|discriminate].
  destruct (String.eqb name text); [discriminate|].
  apply IH, next_index_range, Hi.
Qed.

(** With a positive capacity and a non-negative sum of codes, a search
    reads no cell outside the array and divides by no zero. *)
Lemma search_map_defined t name fuel f :
  sized t -> 0 < current_size t -> 0 <= sum_codes name 0 ->
  search_map fuel name t <> Undefined f.
Proof.
  intros Hsized Hs Hsum.
  destruct (hash_function_range t name Hs Hsum) as (h & Hh & Hrange).
  unfold search_map, index_of. rewrite Hh. cbn [bind].
  pose proof (index_probe_defined t name Hsized fuel h f Hrange) as Hp.
  destruct (index_probe fuel name t h); cbn [bind]; congruence.
Qed.

(** *** Search against the wording of the specification *)

Lemma spec_probe_agrees t name :
  name <> tombstone ->
  forall fuel i,
    spec_probe fuel name t i =
    (let* r := index_probe fuel name t i in
     Done (if r =? -1 then 0 else 1)).
Proof.
  intros Hne. induction fuel as [|fuel IH]; intros i; [reflexivity|].
  cbn [spec_probe index_probe].
  destruct (read_slot (hash_map t) i) as [s| |] eqn:Hs; cbn [bind];
    try reflexivity.
  apply read_slot_range in Hs.
  destruct s as [| |n]; cbn [pointee].
  - reflexivity.
  - destruct (String.eqb_spec name tombstone); [contradiction | apply IH].
  - destruct (String.eqb name n); [|apply IH].
    cbn [bind]. destruct (Z.eqb_spec i (-1)); [lia | reflexivity].
Qed.

(** For every name but the text of the marker, [search_map] is the
    search of the specification. *)
Lemma search_map_agrees fuel name t :
  name <> tombstone -> search_map fuel name t = spec_search fuel name t.
Proof.
  intros Hne. unfold search_map, spec_search, index_of.
  destruct (hash_function t name); cbn [bind]; try reflexivity.
  symmetry. apply spec_probe_agrees, Hne.
Qed.

(** As long as no call deletes the text of the marker or inserts the
    address of the marker, the counter is the number of stored names. *)
Lemma count_exact_clean fuel ops t :
  Forall clean ops -> run fuel ops uninitialised = Done t -> count_exact t.
Proof.
  intros Hclean H.
  apply (run_tidy fuel ops uninitialised t uninitialised_tidy Hclean H).
Qed.

(** ** The properties of the specification *)

(** X19, a stored name stays found.  Take any sequence of calls from
    the uninitialised table, then an insertion of a caller's own string
    [name] that returns with [name] in a cell, then any further calls of
    insert, delete, search and resize, none of them a deletion of
    [name]; if these calls return, then [search_map] on [name] returns 1,
    given enough fuel. *)
Theorem stored_key_found
    (fuel0 fuel1 fuel2 : nat) (before after : list op) (name : string)
    (t0 t1 t2 : table) :
  run fuel0 before uninitialised = Done t0 ->
  add_to_map fuel1 name t0 = Done t1 ->
  stored t1 name ->
  run fuel2 after t1 = Done t2 ->
  ~ In (Remove name) after ->
  exists fuel, forall fuel', (fuel <= fuel')%nat ->
    search_map fuel' name t2 = Done 1.
Proof.
  intros Hbefore Hadd Hstored Hafter Hnot.
  assert (Hinv0 : invariant t0) by (apply reachable_invariant; red; eauto).
  assert (Hinv1 : invariant t1).
  { apply (exec_invariant fuel1 (Add name) t0 t1 0); auto.
    simpl. rewrite Hadd. reflexivity. }
  assert (Hinv2 : invariant t2) by (eapply run_invariant; eauto).
  apply search_map_stored.
  - apply Hinv2.
  - exact (run_keeps fuel2 name after t1 t2 Hinv1 Hafter Hnot Hstored).
Qed.


(** C5, uniqueness.  After any sequence of insertions from the
    uninitialised table, of the caller's own strings or of the address of
    the marker, no name sits in two cells, and inserting a name that is
    stored returns, given enough fuel, the table as it was: the cells,
    the capacity and the count are unchanged.  The same holds with the
    cell that holds the address of the marker counted: no text sits in
    two cells, and inserting a pointer to a text that some cell holds
    changes nothing. *)
Theorem uniqueness (fuel : nat) (names : list pointer) (t : table) :
  run fuel (map Add names) uninitialised = Done t ->
  (unique_keys t /\
   forall name : string, stored t name ->
     exists fuel0, forall fuel', (fuel0 <= fuel')%nat ->
       add_to_map fuel' name t = Done t)
  /\ unique_texts t
  /\ forall (name : pointer) (s : slot),
       In s (hash_map t) -> pointee s = Some (text_of name) ->
       exists fuel0, forall fuel', (fuel0 <= fuel')%nat ->
         add_to_map fuel' name t = Done t.
Proof.
  intros H.
  apply run_adds in H as (Hinv & Hs & Hl);
    [ | apply reachable_invariant; exists 0%nat, []; reflexivity
      | apply uninitialised_settled | unfold load_ok; simpl; lia ].
  assert (Hre : forall (name : pointer) (s : slot),
            In s (hash_map t) -> pointee s = Some (text_of name) ->
            exists fuel0, forall fuel', (fuel0 <= fuel')%nat ->
              add_to_map fuel' name t = Done t).
  { intros name s Hin Hp. apply In_read_slot in Hin as [i Hi].
    destruct Hs as (Hsized & Hchain & _).
    destruct (Hchain _ _ _ Hi Hp) as (h & Hh & Hw).
    eapply add_to_map_present_at; eauto. }
  split; [split|split].
  - apply settled_unique_keys, Hs.
  - intros name Hk. apply (Hre (Caller name) (Occupied name) Hk eq_refl).
  - apply Hs.
  - exact Hre.
Qed.

(** C7, resize rejection.  In every table state, [resize_map] with a new
    capacity below 1, or with one for which count / new capacity > 0.7
    (that is 7 * new capacity < 10 * count), returns the table as it was:
    capacity, count and every cell unchanged. *)
Theorem resize_rejection (fuel : nat) (new_size : Z) (t : table) :
  new_size < 1 \/ 7 * new_size < 10 * number_of_items t ->
  resize_map fuel new_size t = Done t.
Proof.
  intros H. unfold resize_map.
  destruct (Z.ltb_spec new_size 1) as [Hn|Hn]; [reflexivity|].
  rewrite load_factor_exceeded_pos by lia.
  destruct (Z.ltb_spec (7 * new_size) (10 * number_of_items t));
    [reflexivity | lia].
Qed.

(** ** Further properties of the operations *)

(** *** Printing *)

Lemma append_assoc (a b c : string) : ((a ++ b) ++ c = a ++ (b ++ c))%string.
Proof. induction a as [|x a IH]; simpl; congruence. Qed.

Lemma append_empty_r (a : string) : (a ++ "" = a)%string.
Proof. induction a as [|x a IH]; simpl; congruence. Qed.

Lemma print_value_at_index_read t i s :
  read_slot (hash_map t) i = Done s ->
  print_value_at_index t i = Done (render s).
Proof.
  intros H. unfold print_value_at_index. rewrite H. destruct s; reflexivity.
Qed.

(** What the loop writes for a run of cells: each one with its comma. *)
Lemma print_cells_middle t : forall cells before rest out,
  hash_map t = (before ++ cells ++ rest)%list ->
  print_cells t (Z.of_nat (length before)) (length cells) out =
  Done (out ++ String.concat "" (map (fun s => render s ++ ", ") cells))%string.
Proof.
  induction cells as [|c cells IH]; intros before rest out Hm.
  - simpl. rewrite append_empty_r. reflexivity.
  - assert (Hc : read_slot (hash_map t) (Z.of_nat (length before)) = Done c).
    { apply read_slot_Done. split; [lia|].
      rewrite Nat2Z.id, Hm. apply list_lookup_middle. reflexivity. }
    cbn [length print_cells]. rewrite Hc. cbn [bind].
    replace (match c with
             | Empty => Done EmptyString
             | _ => print_value_at_index t (Z.of_nat (length before))
             end) with (Done (A := string) (render c))
      by (destruct c; rewrite ?(print_value_at_index_read _ _ _ Hc); reflexivity).
    cbn [bind].
    replace (Z.of_nat (length before) + 1)
      with (Z.of_nat (length (before ++ [c])%list))
      by (rewrite length_app; simpl; lia).
    rewrite (IH (before ++ [c])%list rest) by (rewrite Hm, <- app_assoc; reflexivity).
    f_equal. rewrite append_assoc. f_equal.
    destruct cells; simpl; rewrite ?append_empty_r; reflexivity.
Qed.

Lemma concat_cons (sep x y : string) (l : list string) :
  String.concat sep (x :: y :: l) = (x ++ sep ++ String.concat sep (y :: l))%string.
Proof. reflexivity. Qed.

(** Joining with a separator is writing each cell but the last with its
    separator. *)
Lemma concat_snoc (sep : string) (f : slot -> string) cells last :
  String.concat sep (map f (cells ++ [last])%list) =
  (String.concat "" (map (fun s => f s ++ sep) cells) ++ f last)%string.
Proof.
  induction cells as [|c cells IH]; [reflexivity|].
  destruct cells as [|c' cells].
  - simpl. rewrite append_assoc. reflexivity.
  - cbn [map app] in *. rewrite !concat_cons, IH.
    cbn [append]. rewrite !append_assoc. reflexivity.
Qed.

(** X1, [print_map] on a table with cells.  The text written is the
    cells in order, a name as it is, a tombstone as [[TOMBSTONE]], a null
    cell as nothing, joined by a comma and a blank and ended by a
    newline. *)
Theorem print_map_output (t : table) :
  sized t ->
  0 < current_size t <= int_max ->
  print_map t =
  Done (String.concat ", " (map render (hash_map t)) ++ newline)%string.
Proof.
  intros Hsized Hsize. unfold sized in Hsized.
  destruct (hash_map t) as [|c0 m0] eqn:Hm using rev_ind.
  { simpl in Hsized. lia. }
  clear IHm0. rename m0 into cells, c0 into last.
  rewrite length_app in Hsized. simpl in Hsized.
  unfold print_map, checked_int.
  destruct (Z.leb_spec int_min (current_size t - 1));
    [|unfold int_min in *; lia].
  destruct (Z.leb_spec (current_size t - 1) int_max); [|lia].
  cbn [andb bind].
  replace (current_size t - 1) with (Z.of_nat (length cells)) by lia.
  rewrite Nat2Z.id.
  pose proof (print_cells_middle t cells [] [last] EmptyString) as Hp.
  change (Z.of_nat (length (@nil slot))) with 0 in Hp.
  cbn [append app] in Hp.
  rewrite Hp by (rewrite Hm; reflexivity). cbn [bind].
  assert (Hl : read_slot (hash_map t) (Z.of_nat (length cells)) = Done last).
  { apply read_slot_Done. split; [lia|].
    rewrite Nat2Z.id, Hm. apply list_lookup_middle. reflexivity. }
  rewrite (print_value_at_index_read _ _ _ Hl). cbn [bind].
  rewrite concat_snoc, append_assoc. reflexivity.
Qed.

(** X2, [print_map] before the first insertion.  With capacity 0 the
    loop is skipped and the last statement reads [hash_map[-1]]: the call
    is undefined, whatever the array. *)
Theorem print_map_no_cells (t : table) :
  current_size t = 0 -> print_map t = Undefined OutOfBounds.
Proof. intros H. unfold print_map. rewrite H. reflexivity. Qed.

(** *** Looking a name up *)

(** A probe that walks towards a cell with the text [name] does not
    report a miss. *)
Lemma index_probe_walk t name i j s :
  walk t i j ->
  read_slot (hash_map t) j = Done s ->
  pointee s = Some name ->
  forall fuel r, index_probe fuel name t i = Done r -> r <> -1.
Proof.
  induction 1 as [i | i j s0 Hr Hs Hw IH]; intros Hread Hp [|fuel] r H;
    simpl in H; try discriminate.
  - rewrite Hread in H. simpl in H. rewrite Hp, String.eqb_refl in H.
    apply read_slot_range in Hread. inversion H. lia.
  - rewrite Hr in H. simpl in H.
    destruct (pointee_not_Empty _ Hs) as [text Ht]. rewrite Ht in H.
    destruct (String.eqb name text).
    + apply read_slot_range in Hr. inversion H. lia.
    + eapply IH; eauto.
Qed.

Lemma index_of_sound fuel name t idx :
  well_formed t -> name <> tombstone ->
  index_of fuel name t = Done idx ->
  (idx = -1 /\ ~ stored t name)
  \/ read_slot (hash_map t) idx = Done (Occupied name).
Proof.
  intros (_ & Hchain & _) Hne H. unfold index_of in H.
  destruct (hash_function t name) as [h| |] eqn:Hh; simpl in H;
    try discriminate.
  destruct (index_probe_Done _ _ _ _ _ H) as [->|(s & Hs & Hp)].
  - left. split; [reflexivity|]. intros Hst.
    apply In_read_slot in Hst as [j Hj].
    destruct (Hchain _ _ Hj) as (h' & Hh' & Hw).
    rewrite Hh in Hh'. inversion Hh'; subst h'.
    exact (index_probe_walk _ _ _ _ _ Hw Hj eq_refl _ _ H eq_refl).
  - right. destruct s as [| |n]; simpl in Hp; try congruence.
Qed.

(** While the probed cell is not the null cell [e], the next one is
    nearer to it. *)
Lemma probe_distance_next t i e :
  0 <= i < current_size t -> 0 <= e < current_size t -> i <> e ->
  probe_distance t (next_index t i) e = probe_distance t i e - 1.
Proof.
  intros Hi He Hne. unfold probe_distance, next_index.
  rewrite Z.geb_leb.
  destruct (Z.leb_spec (current_size t) (i + 1)), (Z.leb_spec i e);
    try destruct (Z.leb_spec 0 e); try destruct (Z.leb_spec (i + 1) e); lia.
Qed.

Lemma probe_distance_bounds t i e :
  0 <= i < current_size t -> 0 <= e < current_size t ->
  0 <= probe_distance t i e < current_size t.
Proof.
  intros Hi He. unfold probe_distance. destruct (Z.leb_spec i e); lia.
Qed.

(** With a null cell in the array the probe of [index_of] ends before
    its fuel does. *)
Lemma index_probe_terminates t name e :
  sized t ->
  read_slot (hash_map t) e = Done Empty ->
  forall fuel i,
    0 <= i < current_size t ->
    probe_distance t i e < Z.of_nat fuel ->
    exists r, index_probe fuel name t i = Done r.
Proof.
  intros Hsized He. pose proof (read_slot_range _ _ _ He) as Hrange.
  unfold sized in Hsized.
  induction fuel as [|fuel IH]; intros i Hi Hd.
  { pose proof (probe_distance_bounds t i e). lia. }
  cbn [index_probe].
  destruct (read_slot_total (hash_map t) i) as [s Hs]; [lia|].
  rewrite Hs. cbn [bind].
  destruct (pointee s) as [text|] eqn:Hp; [|eauto].
  destruct (String.eqb name text); [eauto|].
  apply IH; [apply next_index_range, Hi|].
  rewrite probe_distance_next; try lia.
  intros ->. rewrite He in Hs. inversion Hs; subst s. discriminate.
Qed.

Lemma remove_from_map_index fuel name t t' r :
  remove_from_map fuel name t = Done (t', r) ->
  exists idx, index_of fuel name t = Done idx /\
    ((idx = -1 /\ t' = t /\ r = 0)
     \/
     (idx <> -1 /\ r = 1 /\
      exists m', write_slot (hash_map t) idx Tombstone = Done m' /\
                 t' = mkTable m' (current_size t) (number_of_items t - 1))).
Proof.
  unfold remove_from_map. intros H.
  destruct (index_of fuel name t) as [idx| |]; simpl in H; try discriminate.
  exists idx. split; [reflexivity|].
  destruct (Z.eqb_spec idx (-1)) as [E|Hne].
  { left. inversion H; auto. }
  destruct (write_slot (hash_map t) idx Tombstone) as [m'| |] eqn:Hw;
    simpl in H; try discriminate.
  destruct (checked_int (number_of_items t - 1)) as [c| |] eqn:Hc;
    simpl in H; try discriminate.
  apply checked_int_Done in Hc as [-> _]. inversion H; subst.
  right. eauto.
Qed.

(** X3, what a search answers.  On every table the interface can
    produce and for every name but the text of the marker, an answer of
    [search_map] is 1 exactly when the name is stored and 0 exactly when
    it is not. *)
Theorem search_map_sound (fuel : nat) (name : string) (t : table) (r : Z) :
  reachable t ->
  name <> tombstone ->
  search_map fuel name t = Done r ->
  (r = 1 /\ stored t name) \/ (r = 0 /\ ~ stored t name).
Proof.
  intros Hr Hne H. apply reachable_invariant in Hr as [Hwf _].
  unfold search_map in H.
  destruct (index_of fuel name t) as [idx| |] eqn:Hi; simpl in H;
    try discriminate.
  inversion H; subst r; clear H.
  destruct (index_of_sound _ _ _ _ Hwf Hne Hi) as [[-> Hno]|Hfound].
  - right. auto.
  - left. pose proof (read_slot_range _ _ _ Hfound).
    destruct (Z.eqb_spec idx (-1)); [lia|].
    split; [reflexivity | eapply read_slot_In; eauto].
Qed.

(** X4, when search and deletion return.  If the array has its
    [current_size] cells, one of them null, and the codes of the name add
    up to a non-negative sum, then with fuel for one round of the array
    [search_map] returns, and so does [remove_from_map] when the counter
    is an [int] above the least one. *)
Theorem probes_terminate (fuel : nat) (name : string) (t : table) :
  sized t ->
  In Empty (hash_map t) ->
  0 <= sum_codes name 0 ->
  current_size t <= Z.of_nat fuel ->
  (exists r, search_map fuel name t = Done r) /\
  (int_min < number_of_items t <= int_max ->
   exists t' r, remove_from_map fuel name t = Done (t', r)).
Proof.
  intros Hsized Hin Hsum Hfuel.
  apply In_read_slot in Hin as [e He].
  pose proof (read_slot_range _ _ _ He) as Hrange.
  assert (Hpos : 0 < current_size t) by (unfold sized in Hsized; lia).
  destruct (hash_function_range t name Hpos Hsum) as (h & Hh & Hhr).
  destruct (index_probe_terminates t name e Hsized He fuel h Hhr) as [idx Hidx].
  { assert (0 <= e < current_size t) by (unfold sized in Hsized; lia).
    pose proof (probe_distance_bounds t h e Hhr). lia. }
  split.
  - unfold search_map, index_of. rewrite Hh. cbn [bind]. rewrite Hidx.
    cbn [bind]. eauto.
  - intros Hcount. unfold remove_from_map, index_of. rewrite Hh. cbn [bind].
    rewrite Hidx. cbn [bind].
    destruct (Z.eqb_spec idx (-1)); [eauto|].
    destruct (index_probe_Done _ _ _ _ _ Hidx) as [->|(s & Hs & _)]; [lia|].
    rewrite (write_slot_total _ _ Tombstone _ Hs). cbn [bind].
    unfold checked_int.
    destruct (Z.leb_spec int_min (number_of_items t - 1)); [|lia].
    destruct (Z.leb_spec (number_of_items t - 1) int_max); [|lia].
    cbn [andb bind]. eauto.
Qed.

(** X5, what a deletion does.  On every table the interface can produce
    and for every name but the text of the marker, a returning
    [remove_from_map] keeps the capacity; it answers 0 and leaves the
    table as it was when the name is not stored; it answers 1 when the
    name is stored, after which the name is stored no more and the
    counter is one less; and every other name is stored after the call
    exactly when it was before. *)
Theorem remove_from_map_correct
    (fuel : nat) (name : string) (t t' : table) (r : Z) :
  reachable t ->
  name <> tombstone ->
  remove_from_map fuel name t = Done (t', r) ->
  current_size t' = current_size t /\
  ((r = 0 /\ ~ stored t name /\ t' = t)
   \/
   (r = 1 /\ stored t name /\ ~ stored t' name /\
    number_of_items t' = number_of_items t - 1)) /\
  (forall k, k <> name -> (stored t' k <-> stored t k)).
Proof.
  intros Hr Hne H. apply reachable_invariant in Hr as [Hwf _].
  pose proof (fun k => remove_from_map_keeps fuel name t t' r k H) as Hkeeps.
  destruct (remove_from_map_index _ _ _ _ _ H)
    as (idx & Hi & [(-> & -> & ->)|(Hidx & -> & m' & Hw & ->)]).
  - destruct (index_of_sound _ _ _ _ Hwf Hne Hi) as [[_ Hno]|Hfound];
      [|apply read_slot_range in Hfound; lia].
    split; [reflexivity|]. split; [left; auto|]. tauto.
  - destruct (index_of_sound _ _ _ _ Hwf Hne Hi) as [[E _]|Hfound];
      [contradiction|].
    assert (Hold : forall i k,
               read_slot m' i = Done (Occupied k) ->
               i <> idx /\ read_slot (hash_map t) i = Done (Occupied k)).
    { intros i k Hk. destruct (Z.eq_dec i idx) as [->|Hd].
      - rewrite (read_write_same _ _ _ _ Hw) in Hk. discriminate.
      - rewrite (read_write_other _ _ _ _ _ Hw Hd) in Hk. auto. }
    split; [reflexivity|]. split.
    + right. split; [reflexivity|].
      split; [eapply read_slot_In; eauto|]. split; [|reflexivity].
      intros Hst. apply In_read_slot in Hst as [i Hk]. simpl in Hk.
      apply Hold in Hk as [Hd Hk].
      destruct Hwf as (_ & _ & Huniq). apply Hd. eapply Huniq; eauto.
    + intros k Hk. split; [|auto].
      intros Hst. apply In_read_slot in Hst as [i Hi']. simpl in Hi'.
      apply Hold in Hi' as [_ Hi']. eapply read_slot_In; eauto.
Qed.

(** *** What insertion and resizing store *)

Lemma add_without_resizing_only fuel (name : string) t t' k :
  add_to_map_without_resizing fuel name t = Done t' ->
  stored t' k -> stored t k \/ k = name.
Proof.
  intros H Hk. apply add_without_resizing_effect in H as (h & _ & Heff).
  destruct Heff as [[-> _]|(p & s & m' & Hw & Hr & Hocc & _ & _ & Hwr & ->)]; auto.
  apply In_read_slot in Hk as [i Hi]. simpl in Hi.
  destruct (Z.eq_dec i p) as [->|Hne].
  - rewrite (read_write_same _ _ _ _ Hwr) in Hi. inversion Hi. auto.
  - rewrite (read_write_other _ _ _ _ _ Hwr Hne) in Hi.
    left. eapply read_slot_In; eauto.
Qed.

(** An insertion of a name that is neither stored nor shadowed by a
    tombstone counts one more. *)
Lemma add_without_resizing_new fuel (name : string) t t' :
  add_to_map_without_resizing fuel name t = Done t' ->
  ~ stored t name ->
  name <> tombstone \/ ~ In Tombstone (hash_map t) ->
  number_of_items t' = number_of_items t + 1.
Proof.
  intros H Hno Hts. apply add_without_resizing_effect in H as (h & _ & Heff).
  destruct Heff as [[-> (q & s & Hq & Hp)]|(p & s & m' & _ & _ & _ & _ & _ & _ & ->)];
    [|reflexivity].
  destruct s as [| |n]; simpl in Hp; try discriminate.
  - destruct Hts as [Hne|Hnt]; [congruence|].
    destruct Hnt. eapply read_slot_In; eauto.
  - inversion Hp; subst n. destruct Hno. eapply read_slot_In; eauto.
Qed.

(** The loop of [resize_map] stores names of the old array only, and
    counts each of them once. *)
Lemma rehash_exactly fuel old_map : forall remaining i t t',
  (forall a b k, read_slot old_map a = Done (Occupied k) ->
                 read_slot old_map b = Done (Occupied k) -> a = b) ->
  0 <= i ->
  Z.of_nat remaining = Z.of_nat (length old_map) - i ->
  ~ In Tombstone (hash_map t) ->
  (forall k, stored t k ->
             exists j, 0 <= j < i /\ read_slot old_map j = Done (Occupied k)) ->
  rehash fuel old_map i remaining t = Done t' ->
  number_of_items t' =
    number_of_items t + count_occupied (drop (Z.to_nat i) old_map)
  /\ (forall k, stored t' k -> In (Occupied k) old_map).
Proof.
  induction remaining as [|remaining IH];
    intros i t t' Huniq Hi Hlen Hnt Hfrom H; simpl in H.
  - inversion H; subst t'. rewrite drop_ge by lia. simpl. split; [lia|].
    intros k Hk. destruct (Hfrom k Hk) as (j & _ & Hj).
    eapply read_slot_In; eauto.
  - destruct (read_slot old_map i) as [s| |] eqn:Hr; simpl in H;
      try discriminate.
    destruct (match s with
              | Occupied name => add_to_map_without_resizing fuel name t
              | _ => Done t
              end) as [t1| |] eqn:E; simpl in H; try discriminate.
    pose proof Hr as Hlook. apply read_slot_Done in Hlook as [_ Hlook].
    rewrite (drop_S _ _ _ Hlook). cbn [count_occupied].
    assert (Hstep : number_of_items t1 =
                      number_of_items t + (if is_occupied s then 1 else 0)
                    /\ ~ In Tombstone (hash_map t1)
                    /\ (forall k, stored t1 k ->
                          exists j, 0 <= j < i + 1 /\
                                    read_slot old_map j = Done (Occupied k))).
    { destruct s as [| |name]; simpl.
      - inversion E; subst t1. split; [lia|]. split; [exact Hnt|].
        intros k Hk. destruct (Hfrom k Hk) as (j & Hj & Hjk). exists j. split; [lia|auto].
      - inversion E; subst t1. split; [lia|]. split; [exact Hnt|].
        intros k Hk. destruct (Hfrom k Hk) as (j & Hj & Hjk). exists j. split; [lia|auto].
      - split; [|split].
        + eapply add_without_resizing_new; eauto.
          intros Hst. destruct (Hfrom name Hst) as (j & Hj & Hjk).
          pose proof (Huniq _ _ _ Hjk Hr). lia.
        + eapply add_without_resizing_no_tombstone; eauto.
        + intros k Hk.
          destruct (add_without_resizing_only _ _ _ _ _ E Hk) as [Hold| ->].
          * destruct (Hfrom k Hold) as (j & Hj & Hjk). exists j. split; [lia|auto].
          * exists i. split; [lia|auto]. }
    destruct Hstep as (Hcount & Hnt1 & Hfrom1).
    destruct (IH (i + 1) t1 t' Huniq) as [Hc Hs]; auto; try lia.
    replace (Z.to_nat (i + 1)) with (S (Z.to_nat i)) in Hc by lia.
    split; [lia | exact Hs].
Qed.

Lemma resize_map_exactly fuel new_size t t' :
  well_formed t ->
  resize_map fuel new_size t = Done t' ->
  (forall k, stored t' k <-> stored t k) /\
  (t' = t \/ number_of_items t' = count_occupied (hash_map t)).
Proof.
  intros Hwf H. pose proof Hwf as (Hsized & _ & Huniq).
  pose proof (fun k => resize_map_keeps fuel new_size t t' k Hsized H) as Hkeeps.
  apply resize_map_cases in H as [[-> _]|(Hn & _ & H)]; [split; [tauto | auto]|].
  assert (Hblank : forall k, stored (blank new_size) k ->
            exists j, 0 <= j < 0 /\
                      read_slot (hash_map t) j = Done (Occupied k)).
  { intros k Hk. apply In_read_slot in Hk as [j Hj].
    apply read_blank in Hj. discriminate. }
  assert (Hlen : Z.of_nat (Z.to_nat (current_size t)) =
                 Z.of_nat (length (hash_map t)) - 0)
    by (unfold sized in Hsized; lia).
  destruct (rehash_exactly fuel (hash_map t) _ 0 _ t' Huniq (Z.le_refl 0)
              Hlen (blank_no_tombstone new_size) Hblank H) as [Hc Hs].
  split.
  - intros k. split; [apply Hs | apply Hkeeps].
  - right. simpl in Hc. rewrite drop_0 in Hc. lia.
Qed.



(** X8, what an insertion counts.  On a table the interface can produce
    whose counter is the number of names stored, a returning [add_to_map]
    of a name other than the text of the marker leaves the counter exact;
    the counter is one more when the name was not stored and unchanged
    when it was. *)
Theorem add_to_map_counts (fuel : nat) (name : string) (t t' : table) :
  reachable t ->
  number_of_items t = count_occupied (hash_map t) ->
  name <> tombstone ->
  add_to_map fuel name t = Done t' ->
  number_of_items t' = count_occupied (hash_map t') /\
  (~ stored t name -> number_of_items t' = number_of_items t + 1) /\
  (stored t name -> number_of_items t' = number_of_items t).
Proof.
  intros Hr Hc Hne H. apply reachable_invariant in Hr as [Hwf _].
  pose proof (add_to_map_count_exact _ _ _ _ Hc H) as Hc'.
  split; [exact Hc'|].
  apply add_to_map_cases in H as (t1 & t2 & H1 & H2 & H3).
  assert (Hwf1 : well_formed t1).
  { destruct (current_size t =? 0); [|inversion H1; subst; auto].
    eapply resize_map_well_formed; eauto. }
  assert (H1' : (forall k, stored t1 k <-> stored t k) /\
                number_of_items t1 = number_of_items t).
  { destruct (current_size t =? 0); [|inversion H1; subst; tauto].
    destruct (resize_map_exactly _ _ _ _ Hwf H1) as [Hset [->|Hn]]; auto.
    split; [exact Hset | lia]. }
  destruct H1' as [Hset1 Hn1].
  assert (Hwf2 : well_formed t2)
    by (eapply add_without_resizing_well_formed; eauto).
  assert (Hc2 : count_exact t2).
  { pose proof (add_without_resizing_count _ _ _ _ H2).
    assert (count_exact t1).
    { destruct (current_size t =? 0); [|inversion H1; subst; exact Hc].
      exact (resize_map_count_exact _ _ _ _ Hc H1). }
    unfold count_exact in *. lia. }
  assert (Hn' : number_of_items t' = number_of_items t2).
  { destruct H3 as [[_ ->]|[_ H3]]; auto.
    destruct (resize_map_exactly _ _ _ _ Hwf2 H3) as [_ [->|Hn]]; auto.
    unfold count_exact in Hc2. lia. }
  split.
  - intros Hno. rewrite Hn', <- Hn1.
    eapply add_without_resizing_new; eauto. rewrite Hset1. exact Hno.
  - intros Hst. rewrite Hn', <- Hn1.
    apply Hset1 in Hst. apply In_read_slot in Hst as [j Hj].
    destruct Hwf1 as (_ & Hchain1 & _).
    rewrite (add_without_resizing_present _ _ _ _ _ Hchain1 Hj H2).
    reflexivity.
Qed.

Lemma add_to_map_size fuel name t t' :
  add_to_map fuel name t = Done t' ->
  let capacity := if current_size t =? 0 then 10 else current_size t in
  current_size t' = capacity \/ current_size t' = 2 * capacity.
Proof.
  intros H. apply add_to_map_cases in H as (t1 & t2 & H1 & H2 & H3).
  pose proof (add_without_resizing_size _ _ _ _ H2) as Hs2.
  destruct (add_without_resizing_effect _ _ _ _ H2) as (h & Hh & _).
  apply hash_function_Done in Hh.
  assert (Hs1 : current_size t1 =
                if current_size t =? 0 then 10 else current_size t).
  { destruct (Z.eqb_spec (current_size t) 0) as [E|E];
      [|inversion H1; subst; reflexivity].
    apply resize_map_cases in H1 as [[-> _]|(_ & _ & H1)]; [contradiction|].
    apply rehash_size in H1. exact H1. }
  cbv zeta. rewrite <- Hs1, <- Hs2.
  destruct H3 as [[_ ->]|[_ H3]]; auto.
  apply resize_map_cases in H3 as [[-> _]|(_ & _ & H3)]; auto.
  apply rehash_size in H3. simpl in H3. right. lia.
Qed.

(** X9, how the capacity grows.  On every table the interface can
    produce whose counter is the number of names stored, a returning
    [add_to_map] of a caller's own string works with capacity 10 when the
    table was uninitialised and with the current capacity otherwise; it
    keeps that capacity when the names counted after the call fit into
    0.7 of it, and doubles it, once, when they do not. *)
Theorem add_to_map_capacity (fuel : nat) (name : string) (t t' : table) :
  reachable t ->
  number_of_items t = count_occupied (hash_map t) ->
  add_to_map fuel name t = Done t' ->
  let capacity := if current_size t =? 0 then 10 else current_size t in
  (current_size t' = capacity /\ 10 * number_of_items t' <= 7 * capacity)
  \/
  (current_size t' = 2 * capacity /\ 7 * capacity < 10 * number_of_items t').
Proof.
  intros Hr Hexact H capacity. apply reachable_invariant in Hr.
  destruct (add_to_map_load_ok _ _ _ _ Hr H) as [Hpos Hload].
  pose proof (add_to_map_size _ _ _ _ H) as Hc. cbv zeta in Hc.
  fold capacity in Hc. unfold load_ok in Hload.
  destruct Hc as [Hc|Hc]; [left; split; [exact Hc | lia]|].
  right. split; [exact Hc|].
  apply add_to_map_cases in H as (t1 & t2 & H1 & H2 & H3).
  destruct Hr as [Hwf _].
  assert (Hwf1 : well_formed t1).
  { destruct (current_size t =? 0); [|inversion H1; subst; auto].
    eapply resize_map_well_formed; eauto. }
  assert (Hc1 : count_exact t1).
  { destruct (current_size t =? 0); [|inversion H1; subst; exact Hexact].
    eapply resize_map_count_exact; eauto. }
  assert (Hwf2 : well_formed t2)
    by (eapply add_without_resizing_well_formed; eauto).
  assert (Hc2 : count_exact t2).
  { pose proof (add_without_resizing_count _ _ _ _ H2).
    unfold count_exact in *. lia. }
  assert (Hs2 : current_size t2 = capacity).
  { rewrite (add_without_resizing_size _ _ _ _ H2). subst capacity.
    destruct (Z.eqb_spec (current_size t) 0) as [E|E];
      [|inversion H1; subst; reflexivity].
    apply resize_map_cases in H1 as [[-> _]|(_ & _ & H1)].
    - destruct (add_without_resizing_effect _ _ _ _ H2) as (h & Hh & _).
      apply hash_function_Done in Hh. contradiction.
    - apply rehash_size in H1. exact H1. }
  destruct H3 as [[_ ->]|[Hx H3]]; [lia|].
  rewrite load_factor_exceeded_pos in Hx by lia. apply Z.ltb_lt in Hx.
  unfold count_exact in Hc2.
  destruct (resize_map_exactly _ _ _ _ Hwf2 H3) as [_ [->|Hn]]; lia.
Qed.

(** X11, the counter and the load on clean use.  As long as no call asks
    to delete the text of the marker and none inserts the address of the
    marker itself, after every call that returns the counter is the
    number of names stored, and count / capacity <= 0.7: after a
    deletion and a resize as well as after an insertion. *)
Theorem clean_run_tidy (fuel : nat) (ops : list op) (t : table) :
  Forall clean ops ->
  run fuel ops uninitialised = Done t ->
  number_of_items t = count_occupied (hash_map t) /\
  0 <= number_of_items t /\
  10 * number_of_items t <= 7 * current_size t.
Proof.
  intros Hclean H.
  destruct (run_tidy fuel ops uninitialised t uninitialised_tidy Hclean H)
    as (_ & Hc & Hl).
  unfold count_exact, load_ok in *.
  pose proof (count_occupied_bounds (hash_map t)). lia.
Qed.

(** *** Hashing plain ASCII *)

Lemma wrap_int_small z : int_min <= z <= int_max -> wrap_int z = z.
Proof.
  unfold int_min, int_max, wrap_int. intros Hz.
  rewrite Z.mod_small by lia. lia.
Qed.

Lemma sum_codes_ascii : forall key acc,
  is_ascii key = true ->
  0 <= acc ->
  acc + 127 * Z.of_nat (String.length key) <= int_max ->
  sum_codes key acc = acc + code_sum key
  /\ 0 <= code_sum key <= 127 * Z.of_nat (String.length key).
Proof.
  induction key as [|c key IH]; intros acc Ha Hacc Hlen.
  - simpl. lia.
  - cbn [is_ascii] in Ha. apply andb_true_iff in Ha as [Hc Ha].
    apply Z.ltb_lt in Hc.
    pose proof (N2Z.is_nonneg (N_of_ascii c)) as Hc0.
    cbn [sum_codes code_sum String.length] in *.
    assert (Hcode : char_code c = Z.of_N (N_of_ascii c)).
    { unfold char_code. cbv zeta.
      destruct (Z.leb_spec 128 (Z.of_N (N_of_ascii c))); [lia|].
      rewrite andb_false_r. reflexivity. }
    rewrite Hcode, wrap_int_small by (unfold int_min; lia).
    destruct (IH (acc + Z.of_N (N_of_ascii c))) as [Hs Hb]; auto; try lia.
Qed.

(** X12, the hash of a plain key.  For a key of at most 16909320
    characters, all with codes below 128, and a positive capacity,
    [hash_function] returns the sum of the codes modulo the capacity, an
    index of the array; the sum does not wrap, and the signedness of
    [char] plays no part. *)
Theorem hash_function_ascii (t : table) (key : string) :
  0 < current_size t ->
  is_ascii key = true ->
  Z.of_nat (String.length key) <= 16909320 ->
  hash_function t key = Done (code_sum key mod current_size t)
  /\ 0 <= code_sum key mod current_size t < current_size t.
Proof.
  intros Hs Ha Hlen.
  destruct (sum_codes_ascii key 0 Ha) as [Hsum Hb];
    [lia | unfold int_max; lia |].
  split; [|apply Z.mod_pos_bound; lia].
  rewrite hash_function_mod by (rewrite ?Hsum; lia).
  rewrite Hsum. reflexivity.
Qed.

(** *** The capacity *)

(** X13, the capacity is zero only before the first use.  A table the
    interface can produce has a capacity of at least 0, and with capacity
    0 it is the uninitialised table: once a resize or an insertion has
    given the table cells, no call takes them all away. *)
Theorem capacity_zero_uninitialised (t : table) :
  reachable t ->
  0 <= current_size t /\ (current_size t = 0 -> t = uninitialised).
Proof.
  intros Hr. pose proof (reachable_invariant _ Hr) as [(Hsized & _) _].
  split; [unfold sized in Hsized; lia|].
  destruct Hr as (fuel & ops & H). revert H.
  assert (Hgen : forall t0,
             (current_size t0 = 0 -> t0 = uninitialised) ->
             run fuel ops t0 = Done t ->
             current_size t = 0 -> t = uninitialised); [|eauto].
  induction ops as [|o ops IH]; intros t0 H0 H.
  - inversion H; subst; auto.
  - apply run_cons in H as (t1 & r & H1 & H2).
    apply (IH t1); [|exact H2]. clear IH H2.
    apply exec_Done in H1. destruct o as [n|n|n|n].
    + apply resize_map_cases in H1 as [[-> _]|(Hn & _ & H1)]; auto.
      apply rehash_size in H1. simpl in H1. lia.
    + pose proof (add_to_map_size _ _ _ _ H1) as Hc. cbv zeta in Hc.
      destruct (Z.eqb_spec (current_size t0) 0); lia.
    + destruct (remove_from_map_index _ _ _ _ _ H1) as (idx & Hi & Hcase).
      unfold index_of in Hi.
      destruct (hash_function t0 n) as [h| |] eqn:Hh; try discriminate.
      apply hash_function_Done in Hh.
      destruct Hcase as [(_ & -> & _)|(_ & _ & m' & _ & ->)]; simpl; lia.
    + subst; auto.
Qed.

(** *** When an insertion returns *)

Lemma exists_empty m :
  ~ In Tombstone m -> count_occupied m < Z.of_nat (length m) -> In Empty m.
Proof.
  induction m as [|a m IH]; simpl; intros Hnt Hc; [lia|].
  destruct a as [| |n]; simpl in Hc; [auto | tauto |].
  right. apply IH; [tauto | lia].
Qed.

(** With a null cell in the array the probe of
    [add_to_map_without_resizing] ends before its fuel does. *)
Lemma add_probe_terminates t (name : pointer) e :
  sized t ->
  read_slot (hash_map t) e = Done Empty ->
  int_min <= number_of_items t + 1 <= int_max ->
  forall fuel i ft,
    0 <= i < current_size t ->
    ft = -1 \/ 0 <= ft < current_size t ->
    probe_distance t i e < Z.of_nat fuel ->
    exists t', add_probe fuel name t i ft = Done t'.
Proof.
  intros Hsized He Hcount. pose proof (read_slot_range _ _ _ He) as Hrange.
  unfold sized in Hsized.
  induction fuel as [|fuel IH]; intros i ft Hi Hft Hd.
  { pose proof (probe_distance_bounds t i e). lia. }
  cbn [add_probe].
  destruct (read_slot_total (hash_map t) i) as [s Hs]; [lia|].
  rewrite Hs. cbn [bind].
  destruct (pointee s) as [text|] eqn:Hp.
  - destruct (String.eqb text (text_of name)); [eauto|].
    apply IH; [apply next_index_range, Hi | |].
    + destruct ((ft =? -1) && is_tombstone s); [right; lia | exact Hft].
    + rewrite probe_distance_next; try lia.
      intros ->. rewrite He in Hs. inversion Hs; subst s. discriminate.
  - assert (Hw : exists m',
               write_slot (hash_map t) (if ft =? -1 then i else ft)
                          (cell_of name) = Done m').
    { eexists. apply write_slot_Done. split; [|reflexivity].
      destruct (Z.eqb_spec ft (-1)); lia. }
    destruct Hw as [m' ->]. cbn [bind]. unfold checked_int.
    destruct (Z.leb_spec int_min (number_of_items t + 1)); [|lia].
    destruct (Z.leb_spec (number_of_items t + 1) int_max); [|lia].
    cbn [andb bind]. eauto.
Qed.

Lemma add_without_resizing_terminates fuel (name : string) t :
  sized t ->
  In Empty (hash_map t) ->
  0 <= sum_codes name 0 ->
  int_min <= number_of_items t + 1 <= int_max ->
  current_size t <= Z.of_nat fuel ->
  exists t', add_to_map_without_resizing fuel name t = Done t'.
Proof.
  intros Hsized Hin Hsum Hcount Hfuel.
  apply In_read_slot in Hin as [e He].
  pose proof (read_slot_range _ _ _ He) as Hrange.
  assert (Hpos : 0 < current_size t) by (unfold sized in Hsized; lia).
  destruct (hash_function_range t name Hpos Hsum) as (h & Hh & Hhr).
  unfold add_to_map_without_resizing. cbn [text_of]. rewrite Hh. cbn [bind].
  apply (add_probe_terminates t (Caller name) e Hsized He Hcount); auto.
  assert (0 <= e < current_size t) by (unfold sized in Hsized; lia).
  pose proof (probe_distance_bounds t h e Hhr). lia.
Qed.

Lemma add_without_resizing_sized fuel (name : pointer) t t' :
  sized t -> add_to_map_without_resizing fuel name t = Done t' -> sized t'.
Proof.
  intros Hsized H. apply add_without_resizing_effect in H as (h & _ & Heff).
  destruct Heff as [[-> _]|(p & s & m' & _ & _ & _ & _ & _ & Hwr & ->)]; auto.
  unfold sized. simpl. rewrite (write_slot_length _ _ _ _ Hwr). exact Hsized.
Qed.

(** The loop of [resize_map] returns when the new array is larger than
    the old one and the old names hash to indices. *)
Lemma rehash_terminates fuel old_map :
  (forall j k, read_slot old_map j = Done (Occupied k) -> 0 <= sum_codes k 0) ->
  forall remaining i t,
    sized t ->
    ~ In Tombstone (hash_map t) ->
    count_exact t ->
    0 <= i ->
    number_of_items t <= i ->
    i + Z.of_nat remaining <= Z.of_nat (length old_map) ->
    Z.of_nat (length old_map) < current_size t ->
    current_size t <= Z.of_nat fuel ->
    current_size t <= int_max ->
    exists t', rehash fuel old_map i remaining t = Done t'.
Proof.
  intros Hsums. induction remaining as [|remaining IH];
    intros i t Hsized Hnt Hc Hi Hn Hlen Hbig Hfuel Hmax; [simpl; eauto|].
  cbn [rehash].
  destruct (read_slot_total old_map i) as [s Hs]; [lia|].
  rewrite Hs. cbn [bind].
  assert (Hstep : exists t1,
             match s with
             | Occupied name => add_to_map_without_resizing fuel name t
             | _ => Done t
             end = Done t1
             /\ sized t1 /\ ~ In Tombstone (hash_map t1) /\ count_exact t1
             /\ number_of_items t1 <= i + 1
             /\ current_size t1 = current_size t).
  { destruct s as [| |name]; try (exists t; repeat split; auto; lia).
    pose proof (count_occupied_bounds (hash_map t)) as Hb.
    unfold count_exact in Hc.
    destruct (add_without_resizing_terminates fuel name t) as [t1 H1]; auto.
    - apply exists_empty; auto. unfold sized in Hsized. lia.
    - eauto.
    - unfold int_min. lia.
    - exists t1. split; [exact H1|].
      pose proof (add_without_resizing_count _ _ _ _ H1).
      split; [eapply add_without_resizing_sized; eauto|].
      split; [eapply add_without_resizing_no_tombstone; eauto|].
      split; [unfold count_exact; lia|].
      split; [lia | eapply add_without_resizing_size; eauto]. }
  destruct Hstep as (t1 & -> & Hsized1 & Hnt1 & Hc1 & Hn1 & Hsz1).
  cbn [bind]. apply IH; auto; try lia.
Qed.

(** X14, when an insertion returns.  Take a table without tombstones
    and not over-loaded, whose array has its [current_size] cells, below
    2^30, whose counter is the number of names stored, and whose names,
    like the one to insert, have codes that add up to non-negative sums.
    Then [add_to_map] returns, the growth of the table included, with
    fuel for one round of the doubled array (and of the default one). *)
Theorem add_to_map_terminates (fuel : nat) (name : string) (t : table) :
  sized t ->
  ~ In Tombstone (hash_map t) ->
  number_of_items t = count_occupied (hash_map t) ->
  10 * number_of_items t <= 7 * current_size t ->
  current_size t < 1073741824 ->
  0 <= sum_codes name 0 ->
  (forall k, stored t k -> 0 <= sum_codes k 0) ->
  20 <= Z.of_nat fuel ->
  2 * current_size t <= Z.of_nat fuel ->
  exists t', add_to_map fuel name t = Done t'.
Proof.
  intros Hsized Hnt Hc Hload Hsmall Hsum Hsums Hf20 Hf2.
  (* the table the insertion works on *)
  assert (H1 : exists t1,
             (if current_size t =? 0 then resize_map fuel 10 t else Done t)
               = Done t1
             /\ sized t1 /\ ~ In Tombstone (hash_map t1) /\ count_exact t1
             /\ load_ok t1 /\ 0 < current_size t1
             /\ 2 * current_size t1 <= Z.of_nat fuel
             /\ current_size t1 < 1073741824
             /\ (forall k, stored t1 k -> 0 <= sum_codes k 0)).
  { destruct (Z.eqb_spec (current_size t) 0) as [E|E].
    - exists (blank 10). unfold resize_map. rewrite E.
      assert (Hn0 : number_of_items t = 0).
      { pose proof (count_occupied_bounds (hash_map t)).
        unfold sized in Hsized. lia. }
      rewrite Hn0.
      pose proof (blank_well_formed 10) as (Hs & _); [lia|].
      split; [reflexivity|]. split; [exact Hs|].
      split; [apply blank_no_tombstone|]. split; [apply blank_count_exact|].
      split; [unfold load_ok; simpl; lia|].
      split; [simpl; lia|]. split; [simpl; lia|]. split; [simpl; lia|].
      intros k Hk. apply In_read_slot in Hk as [j Hj].
      apply read_blank in Hj. discriminate.
    - exists t. unfold sized in Hsized.
      repeat split; auto; try lia. }
  destruct H1 as (t1 & H1 & Hsized1 & Hnt1 & Hc1 & Hl1 & Hpos1 & Hf1 & Hsm1 & Hsums1).
  unfold add_to_map. rewrite H1. cbn [bind].
  pose proof (count_occupied_bounds (hash_map t1)) as Hb1.
  unfold count_exact, load_ok in Hc1, Hl1.
  destruct (add_without_resizing_terminates fuel name t1) as [t2 H2]; auto.
  { apply exists_empty; auto. unfold sized in Hsized1. lia. }
  { unfold int_min, int_max. unfold sized in Hsized1. lia. }
  { lia. }
  rewrite H2. cbn [bind].
  pose proof (add_without_resizing_count _ _ _ _ H2) as Hcount2.
  pose proof (add_without_resizing_size _ _ _ _ H2) as Hsz2.
  pose proof (add_without_resizing_sized _ _ _ _ Hsized1 H2) as Hsized2.
  pose proof (count_occupied_bounds (hash_map t2)) as Hb2.
  destruct (load_factor_exceeded (number_of_items t2) (current_size t2));
    [|eauto].
  unfold checked_int.
  destruct (Z.leb_spec int_min (current_size t2 * 2));
    [|unfold int_min in *; lia].
  destruct (Z.leb_spec (current_size t2 * 2) int_max);
    [|unfold int_max in *; lia].
  cbn [andb bind]. unfold resize_map.
  destruct (Z.ltb_spec (current_size t2 * 2) 1); [lia|].
  rewrite load_factor_exceeded_pos by lia.
  unfold sized in Hsized2.
  destruct (Z.ltb_spec (7 * (current_size t2 * 2)) (10 * number_of_items t2));
    [lia|].
  cbn [orb]. destruct (Z.ltb_spec 0 (current_size t2)); [|lia].
  apply rehash_terminates.
  - intros j k Hj. apply read_slot_In in Hj.
    destruct (add_without_resizing_only _ _ _ _ _ H2 Hj) as [Hk| ->]; auto.
  - apply blank_well_formed. lia.
  - apply blank_no_tombstone.
  - apply blank_count_exact.
  - lia.
  - simpl. lia.
  - lia.
  - simpl. lia.
  - simpl. lia.
  - simpl. unfold int_max. lia.
Qed.

(** *** The counter is an [int] *)

Lemma add_probe_count_in_range t (name : pointer) fuel : forall i ft t',
  count_in_range t -> add_probe fuel name t i ft = Done t' ->
  count_in_range t'.
Proof.
  induction fuel as [|fuel IH]; intros i ft t' Hc H; simpl in H;
    [discriminate|].
  destruct (read_slot (hash_map t) i) as [s| |]; simpl in H; try discriminate.
  destruct (pointee s) as [text|].
  - destruct (String.eqb text (text_of name)); [congruence | eauto].
  - destruct (write_slot (hash_map t) _ (cell_of name)) as [m'| |];
      cbn [bind] in H; try discriminate.
    destruct (checked_int (number_of_items t + 1)) as [c| |] eqn:Hn;
      cbn [bind] in H; try discriminate.
    apply checked_int_Done in Hn as [-> Hn]. inversion H. exact Hn.
Qed.

Lemma add_without_resizing_count_in_range fuel (name : pointer) t t' :
  count_in_range t -> add_to_map_without_resizing fuel name t = Done t' ->
  count_in_range t'.
Proof.
  unfold add_to_map_without_resizing. intros Hc H.
  destruct (hash_function t (text_of name)); simpl in H; try discriminate.
  eapply add_probe_count_in_range; eauto.
Qed.

Lemma resize_map_count_in_range fuel new_size t t' :
  count_in_range t -> resize_map fuel new_size t = Done t' ->
  count_in_range t'.
Proof.
  intros Hc H. apply resize_map_cases in H as [[-> _]|(Hn & _ & H)]; auto.
  apply (rehash_preserves count_in_range fuel (hash_map t)) in H; auto.
  - intros name t0 t0'. apply add_without_resizing_count_in_range.
  - unfold count_in_range, int_min, int_max. simpl. lia.
Qed.

Lemma add_to_map_count_in_range fuel (name : pointer) t t' :
  count_in_range t -> add_to_map fuel name t = Done t' -> count_in_range t'.
Proof.
  apply add_to_map_preserves.
  - intros t0 t0'. apply add_without_resizing_count_in_range.
  - intros n t0 t0'. apply resize_map_count_in_range.
Qed.

Lemma remove_from_map_count_in_range fuel name t t' r :
  count_in_range t -> remove_from_map fuel name t = Done (t', r) ->
  count_in_range t'.
Proof.
  unfold remove_from_map. intros Hc H.
  destruct (index_of fuel name t) as [idx| |]; simpl in H; try discriminate.
  destruct (idx =? -1); [inversion H; subst; exact Hc|].
  destruct (write_slot (hash_map t) idx Tombstone) as [m'| |];
    simpl in H; try discriminate.
  destruct (checked_int (number_of_items t - 1)) as [c| |] eqn:Hn;
    simpl in H; try discriminate.
  apply checked_int_Done in Hn as [-> Hn]. inversion H. exact Hn.
Qed.

Lemma reachable_count_in_range t : reachable t -> count_in_range t.
Proof.
  intros (fuel & ops & H). revert H.
  assert (Hgen : forall t0, count_in_range t0 ->
             run fuel ops t0 = Done t -> count_in_range t).
  { induction ops as [|o ops IH]; intros t0 H0 H.
    - inversion H; subst; auto.
    - apply run_cons in H as (t1 & r & H1 & H2).
      apply (IH t1); [|exact H2]. clear IH H2.
      apply exec_Done in H1. destruct o as [n|n|n|n].
      + eapply resize_map_count_in_range; eauto.
      + eapply add_to_map_count_in_range; eauto.
      + eapply remove_from_map_count_in_range; eauto.
      + subst; auto. }
  apply Hgen. unfold count_in_range, int_min, int_max. simpl. lia.
Qed.

(** *** Deleting a name and inserting it again *)

(** Once a tombstone is remembered, a probe that meets no cell with the
    text [name] puts the name there. *)
Lemma add_probe_target t (name : string) ft :
  (forall q s, read_slot (hash_map t) q = Done s -> pointee s <> Some name) ->
  0 <= ft ->
  forall fuel i t',
    add_probe fuel name t i ft = Done t' ->
    exists m',
      write_slot (hash_map t) ft (Occupied name) = Done m' /\
      t' = mkTable m' (current_size t) (number_of_items t + 1).
Proof.
  intros Hno Hft. induction fuel as [|fuel IH]; intros i t' H;
    cbn [add_probe text_of cell_of] in H; [discriminate|].
  destruct (read_slot (hash_map t) i) as [s| |] eqn:Hr; cbn [bind] in H;
    try discriminate.
  destruct (Z.eqb_spec ft (-1)) as [E|_]; [lia|].
  destruct (pointee s) as [text|] eqn:Hp.
  - destruct (String.eqb_spec text name) as [E|_].
    + destruct (Hno _ _ Hr). congruence.
    + cbn [andb] in H. eapply IH; eauto.
  - destruct (write_slot (hash_map t) ft (Occupied name)) as [m'| |];
      cbn [bind] in H; try discriminate.
    destruct (checked_int (number_of_items t + 1)) as [c| |] eqn:Hc;
      cbn [bind] in H; try discriminate.
    apply checked_int_Done in Hc as [-> _]. inversion H. eauto.
Qed.

(** A probe that walks to the only tombstone of the array, and meets no
    cell with the text [name], puts the name into that tombstone. *)
Lemma add_probe_refill t (name : string) i p :
  walk t i p ->
  (forall q s, read_slot (hash_map t) q = Done s -> pointee s <> Some name) ->
  (forall q, read_slot (hash_map t) q = Done Tombstone -> q = p) ->
  read_slot (hash_map t) p = Done Tombstone ->
  forall fuel t',
    add_probe fuel name t i (-1) = Done t' ->
    exists m',
      write_slot (hash_map t) p (Occupied name) = Done m' /\
      t' = mkTable m' (current_size t) (number_of_items t + 1).
Proof.
  induction 1 as [i | i j s0 Hr Hs Hw IH]; intros Hno Honly Hp [|fuel] t' H;
    cbn [add_probe text_of cell_of] in H; try discriminate.
  - rewrite Hp in H. cbn [bind pointee is_tombstone] in H.
    destruct (String.eqb_spec tombstone name) as [E|_].
    { destruct (Hno _ _ Hp). simpl. congruence. }
    cbn [Z.eqb andb] in H. pose proof (read_slot_range _ _ _ Hp).
    eapply add_probe_target; eauto. lia.
  - rewrite Hr in H. cbn [bind] in H.
    destruct (pointee_not_Empty _ Hs) as [text Ht]. rewrite Ht in H.
    destruct (String.eqb_spec text name) as [E|_].
    { destruct (Hno _ _ Hr). congruence. }
    destruct s0 as [| |n]; cbn [is_tombstone Z.eqb andb] in H.
    + congruence.
    + pose proof (Honly _ Hr) as ->. pose proof (read_slot_range _ _ _ Hr).
      eapply add_probe_target; eauto. lia.
    + eapply IH; eauto.
Qed.

(** The start of a walk to a cell of the array is an index of the array. *)
Lemma walk_start_range t i j s :
  walk t i j -> read_slot (hash_map t) j = Done s ->
  0 <= i < Z.of_nat (length (hash_map t)).
Proof.
  intros Hw Hj. destruct Hw as [i | i j s0 Hr _ _];
    eapply read_slot_range; eauto.
Qed.

(** A returning deletion of a stored name puts a tombstone in its cell. *)
Lemma remove_stored fuel name t t1 r :
  well_formed t -> name <> tombstone -> stored t name ->
  remove_from_map fuel name t = Done (t1, r) ->
  r = 1 /\
  exists idx m',
    read_slot (hash_map t) idx = Done (Occupied name) /\
    write_slot (hash_map t) idx Tombstone = Done m' /\
    t1 = mkTable m' (current_size t) (number_of_items t - 1).
Proof.
  intros Hwf Hne Hst Hrem.
  destruct (remove_from_map_index _ _ _ _ _ Hrem)
    as (idx & Hi & [(Hidx & -> & ->)|(Hidx & -> & m' & Hw & ->)]).
  { destruct (index_of_sound _ _ _ _ Hwf Hne Hi) as [[_ Hno]|Hfound];
      [contradiction|].
    subst idx. apply read_slot_range in Hfound. lia. }
  split; [reflexivity|].
  destruct (index_of_sound _ _ _ _ Hwf Hne Hi) as [[E _]|Hfound];
    [contradiction|].
  eauto.
Qed.

(** In a table without another tombstone, the insertion that follows
    puts the name back into its cell. *)
Lemma add_back fuel (name : string) t idx m' t2 :
  well_formed t ->
  ~ In Tombstone (hash_map t) ->
  name <> tombstone ->
  read_slot (hash_map t) idx = Done (Occupied name) ->
  write_slot (hash_map t) idx Tombstone = Done m' ->
  add_to_map_without_resizing fuel name
    (mkTable m' (current_size t) (number_of_items t - 1)) = Done t2 ->
  t2 = t.
Proof.
  intros Hwf Hnt Hne Hfound Hw H2.
  pose proof Hwf as (Hsized & Hchain & Huniq).
  destruct (Hchain _ _ Hfound) as (h & Hh & Hwalk).
  set (t1 := mkTable m' (current_size t) (number_of_items t - 1)) in *.
  assert (Hwalk1 : walk t1 h idx).
  { apply (walk_write t t1 idx Tombstone h idx Hwalk Hw);
      [discriminate | reflexivity]. }
  assert (Hno1 : forall q s, read_slot (hash_map t1) q = Done s ->
                             pointee s <> Some name).
  { intros q s Hq Hp. simpl in Hq. destruct (Z.eq_dec q idx) as [->|Hd].
    - rewrite (read_write_same _ _ _ _ Hw) in Hq. inversion Hq; subst s.
      simpl in Hp. congruence.
    - rewrite (read_write_other _ _ _ _ _ Hw Hd) in Hq.
      destruct s as [| |n]; simpl in Hp; try discriminate.
      + apply Hnt. eapply read_slot_In; eauto.
      + inversion Hp; subst n. apply Hd. eapply Huniq; eauto. }
  assert (Honly1 : forall q, read_slot (hash_map t1) q = Done Tombstone ->
                             q = idx).
  { intros q Hq. simpl in Hq. destruct (Z.eq_dec q idx) as [->|Hd]; auto.
    rewrite (read_write_other _ _ _ _ _ Hw Hd) in Hq.
    destruct Hnt. eapply read_slot_In; eauto. }
  assert (Hp1 : read_slot (hash_map t1) idx = Done Tombstone)
    by (simpl; eapply read_write_same; eauto).
  unfold add_to_map_without_resizing in H2. cbn [text_of] in H2.
  change (hash_function t1 name) with (hash_function t name) in H2.
  rewrite Hh in H2. cbn [bind] in H2.
  destruct (add_probe_refill _ _ _ _ Hwalk1 Hno1 Honly1 Hp1 _ _ H2)
    as (m2 & Hw2 & ->).
  apply write_slot_Done in Hw as [_ ->].
  apply write_slot_Done in Hw2 as [_ ->].
  apply read_slot_Done in Hfound as [_ Hfound].
  subst t1. cbn [hash_map current_size number_of_items].
  rewrite list_insert_insert_eq, (list_insert_id _ _ _ Hfound).
  destruct t as [m sz n]. simpl. f_equal. lia.
Qed.

(** With a null cell in the array and a hash inside it, a deletion
    returns. *)
Lemma remove_from_map_returns fuel name t h e :
  sized t ->
  read_slot (hash_map t) e = Done Empty ->
  hash_function t name = Done h ->
  0 <= h < current_size t ->
  current_size t <= Z.of_nat fuel ->
  int_min < number_of_items t <= int_max ->
  exists t' r, remove_from_map fuel name t = Done (t', r).
Proof.
  intros Hsized He Hh Hhr Hfuel Hcount.
  pose proof (read_slot_range _ _ _ He) as Hrange.
  destruct (index_probe_terminates t name e Hsized He fuel h Hhr) as [idx Hidx].
  { assert (0 <= e < current_size t) by (unfold sized in Hsized; lia).
    pose proof (probe_distance_bounds t h e Hhr). lia. }
  unfold remove_from_map, index_of. rewrite Hh. cbn [bind].
  rewrite Hidx. cbn [bind].
  destruct (Z.eqb_spec idx (-1)); [eauto|].
  destruct (index_probe_Done _ _ _ _ _ Hidx) as [->|(s & Hs & _)]; [lia|].
  rewrite (write_slot_total _ _ Tombstone _ Hs). cbn [bind].
  unfold checked_int.
  destruct (Z.leb_spec int_min (number_of_items t - 1)); [|lia].
  destruct (Z.leb_spec (number_of_items t - 1) int_max); [|lia].
  cbn [andb bind]. eauto.
Qed.

(** X10, delete and insert again.  Take a table the interface can
    produce that has no tombstone, whose counter is the number of names
    stored and that is not over-loaded, and a stored name other than the
    text of the marker.  With fuel for one round of the array, deleting
    the name returns 1, and inserting the name again then returns the
    very table there was before: the name is back in its cell and the
    counter at its value, without growth. *)
Theorem remove_add_round_trip
    (fuel1 fuel2 : nat) (name : string) (t : table) :
  reachable t ->
  ~ In Tombstone (hash_map t) ->
  number_of_items t = count_occupied (hash_map t) ->
  10 * number_of_items t <= 7 * current_size t ->
  name <> tombstone ->
  stored t name ->
  current_size t <= Z.of_nat fuel1 ->
  current_size t <= Z.of_nat fuel2 ->
  exists t1,
    remove_from_map fuel1 name t = Done (t1, 1) /\
    add_to_map fuel2 name t1 = Done t.
Proof.
  intros Hr Hnt Hc Hload Hne Hst Hf1 Hf2.
  pose proof (reachable_count_in_range _ Hr) as Hrange.
  unfold count_in_range in Hrange.
  apply reachable_invariant in Hr as [Hwf _].
  pose proof Hwf as (Hsized & Hchain & Huniq).
  pose proof (count_occupied_bounds (hash_map t)) as Hb.
  pose proof Hst as Hst'. apply In_read_slot in Hst' as [j Hj].
  pose proof (read_slot_range _ _ _ Hj) as Hjr.
  destruct (Hchain _ _ Hj) as (h & Hh & Hwalk).
  pose proof (walk_start_range _ _ _ _ Hwalk Hj) as Hhr.
  unfold sized in Hsized.
  assert (Hin : In Empty (hash_map t)) by (apply exists_empty; auto; lia).
  apply In_read_slot in Hin as [e He].
  pose proof (read_slot_range _ _ _ He) as Her.
  destruct (remove_from_map_returns fuel1 name t h e) as (t1 & r & Hrem);
    auto; try (unfold int_min; lia).
  destruct (remove_stored _ _ _ _ _ Hwf Hne Hst Hrem)
    as (-> & idx & m' & Hidx & Hw & ->).
  eexists. split; [exact Hrem|].
  set (t1 := mkTable m' (current_size t) (number_of_items t - 1)) in *.
  assert (He1 : read_slot (hash_map t1) e = Done Empty).
  { simpl. rewrite (read_write_other _ _ _ _ _ Hw); auto.
    intros ->. rewrite Hidx in He. discriminate. }
  assert (Hsized1 : sized t1).
  { unfold sized. simpl. rewrite (write_slot_length _ _ _ _ Hw). exact Hsized. }
  destruct (add_probe_terminates t1 (Caller name) e Hsized1 He1)
    with (fuel := fuel2) (i := h) (ft := -1) as [t2 H2].
  - simpl. lia.
  - simpl. lia.
  - left. reflexivity.
  - assert (Hd : 0 <= probe_distance t1 h e < current_size t1)
      by (apply probe_distance_bounds; simpl; lia).
    simpl in Hd. lia.
  - assert (Hadd : add_to_map_without_resizing fuel2 name t1 = Done t2).
    { unfold add_to_map_without_resizing. cbn [text_of].
      change (hash_function t1 name) with (hash_function t name).
      rewrite Hh. exact H2. }
    pose proof (add_back _ _ _ _ _ _ Hwf Hnt Hne Hidx Hw Hadd). subst t2.
    unfold add_to_map. change (current_size t1) with (current_size t).
    destruct (Z.eqb_spec (current_size t) 0); [lia|]. cbn [bind].
    rewrite Hadd. cbn [bind].
    rewrite load_factor_exceeded_pos by lia.
    destruct (Z.ltb_spec (7 * current_size t) (10 * number_of_items t));
      [lia | reflexivity].
Qed.

(** *** Every table the interface can produce *)

(** X16, the shape of every table.  Whatever the calls, insertions
    (of the address of the marker included), deletions (of the text of
    the marker included), searches and resizes: the array has
    [current_size] cells, no name sits in two of them, every stored name
    is reached from its hash without crossing a null cell, and the
    counter is within 0.7 of the capacity or at most the number of cells
    in use, hence at most the capacity. *)
Theorem reachable_shape (t : table) :
  reachable t ->
  Z.of_nat (length (hash_map t)) = current_size t /\
  unique_keys t /\
  probe_chain t /\
  (10 * number_of_items t <= 7 * current_size t
   \/ number_of_items t <= count_used (hash_map t)) /\
  number_of_items t <= current_size t.
Proof.
  intros Hr. apply reachable_invariant in Hr as [(Hsized & Hchain & Huniq) Hc].
  unfold sized, count_bounded in *.
  pose proof (count_used_bounds (hash_map t)).
  split; [exact Hsized|]. split; [exact Huniq|]. split; [exact Hchain|].
  split; [exact Hc|]. destruct Hc; lia.
Qed.

Lemma remove_from_map_gone fuel name t t' r :
  well_formed t -> name <> tombstone ->
  remove_from_map fuel name t = Done (t', r) ->
  ~ stored t' name.
Proof.
  intros Hwf Hne H.
  destruct (remove_from_map_index _ _ _ _ _ H)
    as (idx & Hi & [(Hidx & -> & _)|(Hidx & _ & m' & Hw & ->)]).
  - destruct (index_of_sound _ _ _ _ Hwf Hne Hi) as [[_ Hno]|Hfound]; auto.
    subst idx. apply read_slot_range in Hfound. lia.
  - destruct (index_of_sound _ _ _ _ Hwf Hne Hi) as [[E _]|Hfound];
      [contradiction|].
    intros Hst. apply In_read_slot in Hst as [i Hk]. simpl in Hk.
    destruct (Z.eq_dec i idx) as [->|Hd].
    + rewrite (read_write_same _ _ _ _ Hw) in Hk. discriminate.
    + rewrite (read_write_other _ _ _ _ _ Hw Hd) in Hk.
      destruct Hwf as (_ & _ & Huniq). apply Hd. eapply Huniq; eauto.
Qed.

(** X17, search after delete.  On every table the interface can
    produce, once [remove_from_map] has returned for a name other than the
    text of the marker, whether it found the name or not, every answer
    of [search_map] for that name is 0. *)
Theorem search_after_remove
    (fuel fuel' : nat) (name : string) (t t' : table) (r r' : Z) :
  reachable t ->
  name <> tombstone ->
  remove_from_map fuel name t = Done (t', r) ->
  search_map fuel' name t' = Done r' ->
  r' = 0.
Proof.
  intros Hr Hne Hrem Hs. apply reachable_invariant in Hr as [Hwf _].
  pose proof (remove_from_map_gone _ _ _ _ _ Hwf Hne Hrem) as Hgone.
  pose proof (remove_from_map_well_formed _ _ _ _ _ Hwf Hrem) as Hwf'.
  unfold search_map in Hs.
  destruct (index_of fuel' name t') as [idx| |] eqn:Hi; simpl in Hs;
    try discriminate.
  destruct (index_of_sound _ _ _ _ Hwf' Hne Hi) as [[-> _]|Hfound].
  - inversion Hs. reflexivity.
  - destruct Hgone. eapply read_slot_In; eauto.
Qed.

(** X18, inserting twice.  On every table the interface can produce,
    whatever its tombstones and its counter, a second [add_to_map] of the
    same name (other than the text of the marker) that returns leaves
    the table exactly as the first one left it. *)
Theorem add_to_map_idempotent
    (fuel1 fuel2 : nat) (name : string) (t t1 t2 : table) :
  reachable t ->
  name <> tombstone ->
  add_to_map fuel1 name t = Done t1 ->
  add_to_map fuel2 name t1 = Done t2 ->
  t2 = t1.
Proof.
  intros Hr Hne H1 H2. apply reachable_invariant in Hr.
  destruct (add_to_map_load_ok _ _ _ _ Hr H1) as [Hpos Hload].
  destruct Hr as [Hwf _].
  pose proof (add_to_map_well_formed _ _ _ _ Hwf H1) as (_ & Hchain1 & _).
  pose proof (add_to_map_stores _ _ _ _ Hwf Hne H1) as Hst.
  apply In_read_slot in Hst as [j Hj].
  apply add_to_map_cases in H2 as (t1' & t2' & Ha & Hb & Hc).
  destruct (Z.eqb_spec (current_size t1) 0); [lia|].
  inversion Ha; subst t1'; clear Ha.
  pose proof (add_without_resizing_present _ _ _ _ _ Hchain1 Hj Hb); subst t2'.
  destruct Hc as [[_ ->]|[Hx _]]; [reflexivity|].
  rewrite load_factor_exceeded_pos in Hx by exact Hpos.
  apply Z.ltb_lt in Hx. unfold load_ok in Hload. lia.
Qed.

End HashTable.

(** ** The remaining properties, on concrete tables *)

(** C1, find-after-insert.  Where the literal "tombstone" of a caller
    shares the storage of the marker, [add_to_map("tombstone")] on the
    uninitialised table stores the address of the marker in cell 7 and
    counts it, and [search_map("tombstone")] answers 1; after
    [resize_map(12)], which takes the cell for a tombstone and drops it,
    the search answers 0, though no deletion was called.  The same
    happens to the caller's own string "tombstone" after
    [add_to_map("a")] and [remove_from_map("a")]: the insertion returns
    at the tombstone of cell 7 and stores nothing, the search answers 1,
    and after [resize_map(12)] no fuel makes it answer 1. *)
Theorem inserted_key_lost (char_is_signed : bool) (extra : nat) :
  let fuel := (12 + extra)%nat in
  add_to_map char_is_signed fuel Marker uninitialised = Done marker_inserted
  /\ search_map char_is_signed fuel tombstone marker_inserted = Done 1
  /\ resize_map char_is_signed fuel 12 marker_inserted = Done (blank 12)
  /\ search_map char_is_signed fuel tombstone (blank 12) = Done 0
  /\ run char_is_signed fuel [Add "a"; Remove "a"] uninitialised
       = Done one_tombstone
  /\ add_to_map char_is_signed fuel (Caller tombstone) one_tombstone
       = Done one_tombstone
  /\ search_map char_is_signed fuel tombstone one_tombstone = Done 1
  /\ resize_map char_is_signed fuel 12 one_tombstone = Done (blank 12)
  /\ (forall fuel',
        search_map char_is_signed fuel' tombstone (blank 12) <> Done 1).
Proof.
  cbv zeta.
  repeat (split; [destruct char_is_signed; vm_compute; reflexivity|]).
  intros [|fuel']; destruct char_is_signed; vm_compute; discriminate.
Qed.

(** C2, count invariant.  The calls [add_to_map("a")],
    [remove_from_map("a")], [remove_from_map("tombstone")] all return; the
    last one meets the tombstone left by the second, takes it for the
    name, and decrements the counter: the table then holds no name and
    counts -1. *)
Theorem count_invariant_broken (char_is_signed : bool) (extra : nat) :
  run char_is_signed (10 + extra) [Add "a"; Remove "a"] uninitialised
    = Done one_tombstone
  /\ remove_from_map char_is_signed (10 + extra) tombstone one_tombstone
    = Done (mkTable (hash_map one_tombstone) 10 (-1), 1)
  /\ count_occupied (hash_map one_tombstone) = 0.
Proof. destruct char_is_signed; vm_compute; auto. Qed.

(** C3, search semantics.  After [add_to_map("a")] and
    [remove_from_map("a")] no name is stored, and the search of the
    specification answers 0 for the text of the marker; [search_map]
    answers 1: the tombstone in cell 7 is compared with [strcmp] like a
    name, and matches. *)
Theorem search_matches_tombstone (char_is_signed : bool) (extra : nat) :
  run char_is_signed (10 + extra) [Add "a"; Remove "a"] uninitialised
    = Done one_tombstone
  /\ ~ stored one_tombstone tombstone
  /\ spec_search char_is_signed (10 + extra) tombstone one_tombstone = Done 0
  /\ search_map char_is_signed (10 + extra) tombstone one_tombstone = Done 1.
Proof.
  split; [destruct char_is_signed; vm_compute; reflexivity|].
  split; [|split; destruct char_is_signed; vm_compute; reflexivity].
  unfold stored. simpl. intuition discriminate.
Qed.

(** C6, the concrete scenario, with any fuel from 12 on. *)
Theorem concrete_scenario (char_is_signed : bool) (extra : nat) :
  let fuel := (12 + extra)%nat in
  (* resize(6): capacity 6, count 0 *)
  resize_map char_is_signed fuel 6 uninitialised = Done (blank 6)
  /\ current_size (blank 6) = 6 /\ number_of_items (blank 6) = 0
  (* Alpha, Bravo; Alpha again is rejected *)
  /\ run char_is_signed fuel [Add "Alpha"; Add "Bravo"] (blank 6)
       = Done after_bravo
  /\ add_to_map char_is_signed fuel "Alpha" after_bravo = Done after_bravo
  (* Charlie, Delta: count 4, capacity still 6 *)
  /\ run char_is_signed fuel [Add "Charlie"; Add "Delta"] after_bravo
       = Done after_delta
  /\ number_of_items after_delta = 4 /\ current_size after_delta = 6
  (* Echo: count 5, capacity 12 *)
  /\ add_to_map char_is_signed fuel "Echo" after_delta = Done after_echo
  /\ number_of_items after_echo = 5 /\ current_size after_echo = 12
  /\ search_map char_is_signed fuel "Alpha" after_echo = Done 1
  (* delete Charlie: found, count 4, a tombstone in its cell *)
  /\ read_slot (hash_map after_echo) 0 = Done (Occupied "Charlie")
  /\ remove_from_map char_is_signed fuel "Charlie" after_echo
       = Done (after_delete, 1)
  /\ number_of_items after_delete = 4
  /\ read_slot (hash_map after_delete) 0 = Done Tombstone
  /\ search_map char_is_signed fuel "Echo" after_delete = Done 1
  (* Charlie again: count 5, back in the cell of the tombstone, no growth *)
  /\ add_to_map char_is_signed fuel "Charlie" after_delete = Done after_echo.
Proof. destruct char_is_signed; vm_compute; repeat split; reflexivity. Qed.

(** C8, termination.  Inserting and deleting the names a to j in turn,
    from the uninitialised table, returns each time and leaves the ten
    cells of the default table as tombstones, with count 0.  On that table
    neither [search_map("k")] nor [add_to_map("k")] returns, whatever the
    fuel: the probe finds no null cell to stop at. *)
Theorem probe_never_ends (char_is_signed : bool) :
  run char_is_signed 1 (add_and_remove ten_names) uninitialised
    = Done saturated
  /\ forall fuel,
       search_map char_is_signed fuel "k" saturated = OutOfFuel
       /\ add_to_map char_is_signed fuel "k" saturated = OutOfFuel.
Proof.
  split; [destruct char_is_signed; vm_compute; reflexivity|].
  assert (Hsized : sized saturated) by reflexivity.
  assert (Hfull : forall s, In s (hash_map saturated) ->
                    exists text, pointee s = Some text /\ text <> "k").
  { intros s Hs. exists tombstone. simpl in Hs.
    intuition (subst; auto; discriminate). }
  assert (Hh : hash_function char_is_signed saturated "k" = Done 7)
    by (destruct char_is_signed; reflexivity).
  intros fuel. split.
  - unfold search_map, index_of. rewrite Hh. cbn [bind].
    rewrite (index_probe_full _ _ Hsized Hfull); [reflexivity|].
    simpl. lia.
  - unfold add_to_map, add_to_map_without_resizing.
    change (current_size saturated =? 0) with false. cbn [bind text_of].
    rewrite Hh. cbn [bind].
    rewrite (add_probe_full _ (Caller "k") Hsized Hfull); [reflexivity|].
    simpl. lia.
Qed.

(** C9, range of the hash.  In a table of capacity 10 the key of
    22139009 letters a has the wrapped sum -2147483423 and the hash -3;
    where [char] is signed the two-byte key [e_acute] has the sum -148 and
    the hash -8.  Neither lies in [0, 10). *)
Theorem hash_function_negative :
  resize_map true 0 10 uninitialised = Done (blank 10)
  /\ (forall char_is_signed,
        hash_function char_is_signed (blank 10) long_key = Done (-3))
  /\ hash_function true (blank 10) e_acute = Done (-8).
Proof.
  split; [reflexivity|]. split; [|reflexivity].
  intros char_is_signed. apply hash_function_long_key.
Qed.

(** C10, the precondition of search and delete.  On the uninitialised
    table both divide by zero, for every name.  With capacity 10 the long
    key hashes to -3 and the first cell either of them reads lies outside
    the array. *)
Theorem probe_out_of_bounds (char_is_signed : bool) (fuel : nat) :
  (forall name,
      search_map char_is_signed fuel name uninitialised
        = Undefined DivisionByZero
      /\ remove_from_map char_is_signed fuel name uninitialised
        = Undefined DivisionByZero)
  /\ search_map char_is_signed (S fuel) long_key (blank 10)
       = Undefined OutOfBounds
  /\ remove_from_map char_is_signed (S fuel) long_key (blank 10)
       = Undefined OutOfBounds.
Proof.
  split; [intros name; split; reflexivity|].
  unfold search_map, remove_from_map, index_of.
  rewrite hash_function_long_key. split; reflexivity.
Qed.

(** The ceiling is exceeded between the two halves of [add_to_map]: with
    Echo put in, the table of the scenario holds 5 names in 6 cells. *)
Lemma overloaded_before_resize (char_is_signed : bool) :
  add_to_map_without_resizing char_is_signed 12 "Echo" after_delta
    = Done (mkTable [Occupied "Alpha"; Occupied "Charlie"; Occupied "Bravo";
                     Empty; Occupied "Delta"; Occupied "Echo"] 6 5)
  /\ load_factor_exceeded 5 6 = true.
Proof. destruct char_is_signed; vm_compute; split; reflexivity. Qed.

(** ** Instances *)

Lemma stored_key_found_witness :
  exists fuel, forall fuel', (fuel <= fuel')%nat ->
    search_map true fuel' "Alpha" after_delete = Done 1.
Proof.
  apply (stored_key_found true 12 12 12
           [Resize 6]
           [Add "Bravo"; Add "Alpha"; Add "Charlie"; Add "Delta"; Add "Echo";
            Search "Alpha"; Remove "Charlie"]
           "Alpha" (blank 6)
           (mkTable [Occupied "Alpha"; Empty; Empty; Empty; Empty; Empty] 6 1)
           after_delete).
  - vm_compute. reflexivity.
  - vm_compute. reflexivity.
  - left. reflexivity.
  - vm_compute. reflexivity.
  - simpl. intuition discriminate.
Defined.


Lemma uniqueness_witness :
  (unique_keys two_names /\
   forall name : string, stored two_names name ->
     exists fuel0, forall fuel', (fuel0 <= fuel')%nat ->
       add_to_map true fuel' name two_names = Done two_names)
  /\ unique_texts two_names
  /\ forall (name : pointer) (s : slot),
       In s (hash_map two_names) -> pointee s = Some (text_of name) ->
       exists fuel0, forall fuel', (fuel0 <= fuel')%nat ->
         add_to_map true fuel' name two_names = Done two_names.
Proof.
  apply (uniqueness true 12 [Caller "Alpha"; Caller "Bravo"]).
  vm_compute. reflexivity.
Defined.

Lemma resize_rejection_witness :
  resize_map true 12 0 after_echo = Done after_echo
  /\ resize_map true 12 7 after_echo = Done after_echo.
Proof.
  split.
  - apply (resize_rejection true 12 0 after_echo). left. lia.
  - apply (resize_rejection true 12 7 after_echo). right. simpl. lia.
Defined.

(** ** Further properties, on the demonstration and on instances *)

(** X15, the demonstration.  [main] runs to its end without undefined
    behaviour, with fuel 12 or more: it prints the table of capacity 12
    with its five strings, the two lines of the successful searches, the
    table with a tombstone in the place of the third string and the table
    with the string back in that place, and returns 0. *)
Theorem main_output (char_is_signed : bool) (extra : nat) :
  main char_is_signed (12 + extra) =
  Done
    ((", Be kind to yourself, , #Hello world, , , , Be the best you...!!, "
      ++ "Principles of Programming 2, , How are you?, " ++ newline
      ++ "Found #Hello world!" ++ newline
      ++ "Found Principles of Programming 2!" ++ newline
      ++ ", Be kind to yourself, , #Hello world, , , , [TOMBSTONE], "
      ++ "Principles of Programming 2, , How are you?, " ++ newline
      ++ ", Be kind to yourself, , #Hello world, , , , Be the best you...!!, "
      ++ "Principles of Programming 2, , How are you?, " ++ newline)%string,
     0).
Proof. destruct char_is_signed; vm_compute; reflexivity. Qed.

Lemma scenario_reachable : reachable true after_delete.
Proof. exists 12%nat, scenario. vm_compute. reflexivity. Defined.

Lemma after_echo_reachable : reachable true after_echo.
Proof.
  exists 12%nat,
    [Resize 6; Add "Alpha"; Add "Bravo"; Add "Charlie"; Add "Delta";
     Add "Echo"].
  vm_compute. reflexivity.
Defined.

Lemma after_delta_reachable : reachable true after_delta.
Proof.
  exists 12%nat,
    [Resize 6; Add "Alpha"; Add "Bravo"; Add "Charlie"; Add "Delta"].
  vm_compute. reflexivity.
Defined.

Lemma print_map_output_witness :
  print_map after_delete =
  Done (String.concat ", " (map render (hash_map after_delete)) ++ newline)%string.
Proof.
  apply (print_map_output after_delete).
  - reflexivity.
  - unfold int_max. simpl. lia.
Defined.

Lemma print_map_no_cells_witness :
  print_map uninitialised = Undefined OutOfBounds.
Proof. apply (print_map_no_cells uninitialised). reflexivity. Defined.

Lemma search_map_sound_witness :
  (0 = 1 /\ stored after_delete "Charlie")
  \/ (0 = 0 /\ ~ stored after_delete "Charlie").
Proof.
  apply (search_map_sound true 12 "Charlie" after_delete 0).
  - exact scenario_reachable.
  - discriminate.
  - vm_compute. reflexivity.
Defined.

Lemma probes_terminate_witness :
  (exists r, search_map true 12 "Zulu" after_delete = Done r) /\
  (int_min < number_of_items after_delete <= int_max ->
   exists t' r, remove_from_map true 12 "Zulu" after_delete = Done (t', r)).
Proof.
  apply (probes_terminate true 12 "Zulu" after_delete).
  - reflexivity.
  - simpl. auto.
  - vm_compute. discriminate.
  - simpl. lia.
Defined.

Lemma remove_from_map_correct_witness :
  current_size after_delete = current_size after_echo /\
  ((1 = 0 /\ ~ stored after_echo "Charlie" /\ after_delete = after_echo)
   \/
   (1 = 1 /\ stored after_echo "Charlie" /\ ~ stored after_delete "Charlie" /\
    number_of_items after_delete = number_of_items after_echo - 1)) /\
  (forall k, k <> "Charlie" ->
             (stored after_delete k <-> stored after_echo k)).
Proof.
  apply (remove_from_map_correct true 12 "Charlie" after_echo after_delete 1).
  - exact after_echo_reachable.
  - discriminate.
  - vm_compute. reflexivity.
Defined.



Lemma add_to_map_counts_witness :
  number_of_items after_echo = count_occupied (hash_map after_echo) /\
  (~ stored after_delta "Echo" ->
   number_of_items after_echo = number_of_items after_delta + 1) /\
  (stored after_delta "Echo" ->
   number_of_items after_echo = number_of_items after_delta).
Proof.
  apply (add_to_map_counts true 12 "Echo" after_delta after_echo).
  - exact after_delta_reachable.
  - reflexivity.
  - discriminate.
  - vm_compute. reflexivity.
Defined.

Lemma add_to_map_capacity_witness :
  (current_size after_echo = 6 /\ 10 * number_of_items after_echo <= 7 * 6)
  \/
  (current_size after_echo = 2 * 6 /\ 7 * 6 < 10 * number_of_items after_echo).
Proof.
  apply (add_to_map_capacity true 12 "Echo" after_delta after_echo).
  - exact after_delta_reachable.
  - reflexivity.
  - vm_compute. reflexivity.
Defined.

Lemma remove_add_round_trip_witness :
  exists t1,
    remove_from_map true 12 "Charlie" after_echo = Done (t1, 1) /\
    add_to_map true 12 "Charlie" t1 = Done after_echo.
Proof.
  apply (remove_add_round_trip true 12 12 "Charlie" after_echo).
  - exact after_echo_reachable.
  - simpl. intuition discriminate.
  - reflexivity.
  - simpl. lia.
  - discriminate.
  - unfold stored. simpl. auto.
  - simpl. lia.
  - simpl. lia.
Defined.

Lemma clean_run_tidy_witness :
  number_of_items after_delete = count_occupied (hash_map after_delete) /\
  0 <= number_of_items after_delete /\
  10 * number_of_items after_delete <= 7 * current_size after_delete.
Proof.
  apply (clean_run_tidy true 12 scenario after_delete).
  - unfold scenario. repeat constructor; discriminate.
  - vm_compute. reflexivity.
Defined.

Lemma hash_function_ascii_witness :
  hash_function true (blank 10) "Alpha" = Done (code_sum "Alpha" mod 10)
  /\ 0 <= code_sum "Alpha" mod 10 < 10.
Proof.
  apply (hash_function_ascii true (blank 10) "Alpha").
  - simpl. lia.
  - reflexivity.
  - simpl. lia.
Defined.

Lemma capacity_zero_uninitialised_witness :
  0 <= current_size after_delete /\
  (current_size after_delete = 0 -> after_delete = uninitialised).
Proof.
  apply (capacity_zero_uninitialised true after_delete).
  exact scenario_reachable.
Defined.

Lemma add_to_map_terminates_witness :
  exists t', add_to_map true 24 "Echo" after_delta = Done t'.
Proof.
  apply (add_to_map_terminates true 24 "Echo" after_delta).
  - reflexivity.
  - simpl. intuition discriminate.
  - reflexivity.
  - simpl. lia.
  - simpl. lia.
  - vm_compute. discriminate.
  - intros k Hk. unfold stored in Hk. simpl in Hk.
    repeat (destruct Hk as [Hk|Hk];
            [try discriminate; inversion Hk; vm_compute; discriminate|]).
    destruct Hk.
  - lia.
  - simpl. lia.
Defined.

Lemma reachable_shape_witness :
  Z.of_nat (length (hash_map after_delete)) = current_size after_delete /\
  unique_keys after_delete /\
  probe_chain true after_delete /\
  (10 * number_of_items after_delete <= 7 * current_size after_delete
   \/ number_of_items after_delete <= count_used (hash_map after_delete)) /\
  number_of_items after_delete <= current_size after_delete.
Proof. apply (reachable_shape true after_delete). exact scenario_reachable. Defined.

Lemma search_after_remove_witness : 0 = 0.
Proof.
  apply (search_after_remove true 12 12 "Charlie" after_echo after_delete 1 0).
  - exact after_echo_reachable.
  - discriminate.
  - vm_compute. reflexivity.
  - vm_compute. reflexivity.
Defined.

Lemma add_to_map_idempotent_witness : after_echo = after_echo.
Proof.
  apply (add_to_map_idempotent true 12 12 "Echo"
           after_delta after_echo after_echo).
  - exact after_delta_reachable.
  - discriminate.
  - vm_compute. reflexivity.
  - vm_compute. reflexivity.
Defined.
